(** * syncal: one-way Google Calendar -> iCloud synchronisation

    A shallow embedding of [internal/syncer/syncer.go] together with the
    parts of [internal/models], [internal/icloud] and [internal/google]
    that the orchestrator relies on.

    Conventions of the embedding:
    - a Go function returning [(T, error)] returns a pair whose second
      component is [option error] ([None] is Go's [nil] error);
    - run-time panics (index out of range, assignment to an entry of a nil
      map) are an explicit outcome [Panic];
    - everything outside the process (the state file, the remote iCloud
      calendar, the Google API, the random source, the log sink) lives in a
      [World] that is threaded through the code; the behaviour of the remote
      services is given by oracles collected in an [Env];
    - pointer-typed collaborators ([*slog.Logger], [*google.CalendarClient],
      [*icloud.CalDAVClient], [*time.Location]) are valid handles, as they
      are when built by [cmd/main.go]. *)

From Stdlib Require Import ZArith Lia Ascii String.
From stdpp Require Import gmap strings list fin_maps.

Local Open Scope string_scope.
Local Open Scope list_scope.

(** ** Errors *)

(** The [errno] values a failed file operation can carry. *)
Inductive Errno := ENOENT | EACCES | EISDIR | EIO | ENOSPC.

(** Go [error] values, by origin.  [Errorf prefix e] is
    [fmt.Errorf("prefix: %w", e)]. *)
Inductive error :=
| PathError (op path : string) (errno : Errno)
| JSONError (detail : string)
| APIError (detail : string)
| CalDAVError (detail : string)
| Errorf (prefix : string) (wrapped : error).

#[global] Instance Errno_eq_dec : EqDecision Errno.
Proof. solve_decision. Defined.

#[global] Instance error_eq_dec : EqDecision error.
Proof. solve_decision. Defined.

(** ** Library models *)

Module GoOS.

(** [os.IsNotExist]: true for the errors the [os] package reports for a
    missing file.  It predates [errors.Is] and does not look through
    [fmt.Errorf] wrappers. *)
Definition IsNotExist (e : error) : bool :=
  match e with
  | PathError _ _ ENOENT => true
  | _ => false
  end.

(** What the file system holds under a path. *)
Inductive FileState :=
| Absent
| Unreadable (errno : Errno)
| Present (data : string).

End GoOS.

Module GoStrings.

(** [strings.Split(s, sep)] for a one-byte separator: the pieces of [s]
    between occurrences of [sep]; the empty string yields one empty
    piece. *)
Fixpoint Split (s : string) (sep : ascii) : list string :=
  match s with
  | EmptyString => [EmptyString]
  | String c rest =>
      if decide (c = sep) then EmptyString :: Split rest sep
      else match Split rest sep with
           | piece :: pieces => String c piece :: pieces
           | [] => [String c EmptyString]
           end
  end.

End GoStrings.

Module GoTime.

(** [*time.Location], identified by its IANA name. *)
Record Location := { zone : string }.

(** [time.Time] without a monotonic reading (values produced by
    [time.Parse] carry none): an instant, as seconds and nanoseconds
    since the Unix epoch, and the location it is presented in. *)
Record Time := { unix_sec : Z; nsec : Z; loc : Location }.

(** [t.In(loc)]: the same instant, presented in [loc]. *)
Definition In (t : Time) (l : Location) : Time :=
  {| unix_sec := unix_sec t; nsec := nsec t; loc := l |}.

(** [t.Equal(u)]: same instant, whatever the locations. *)
Definition Equal (t u : Time) : bool :=
  (unix_sec t =? unix_sec u)%Z && (nsec t =? nsec u)%Z.

End GoTime.

Module Uuid.

(** A UUID is a 16-byte array; bytes are integers in [0, 256). *)
Definition UUID := list Z.

Definition hexdigit (n : Z) : ascii :=
  match String.get (Z.to_nat n) "0123456789abcdef" with
  | Some c => c
  | None => "0"%char
  end.

(** [hex.Encode]: two lower-case hexadecimal digits per byte. *)
Fixpoint encodeHex (bs : list Z) : string :=
  match bs with
  | [] => EmptyString
  | b :: bs' =>
      String (hexdigit (Z.shiftr b 4))
        (String (hexdigit (Z.land b 15)) (encodeHex bs'))
  end.

Definition slice (u : UUID) (lo hi : nat) : list Z :=
  take (hi - lo) (drop lo u).

(** [UUID.String]: xxxxxxxx-xxxx-xxxx-xxxx-xxxxxxxxxxxx. *)
Definition String (u : UUID) : string :=
  encodeHex (slice u 0 4) +:+ "-" +:+
  encodeHex (slice u 4 6) +:+ "-" +:+
  encodeHex (slice u 6 8) +:+ "-" +:+
  encodeHex (slice u 8 10) +:+ "-" +:+
  encodeHex (slice u 10 16).

(** [uuid.NewRandom] on 16 bytes read from the random source: version 4,
    variant 10. *)
Definition NewRandom (random : nat -> Z) : UUID :=
  let raw := (fun i => random i mod 256)%Z <$> seq 0 16 in
  let v := <[6 := Z.lor (Z.land (raw !!! 6%nat) 15) 64]> raw in
  <[8 := Z.lor (Z.land (v !!! 8%nat) 63) 128]> v.

End Uuid.

(** ** Data model *)

(** [models.Event]. *)
Record Event := {
  ID : string;
  Title : string;
  Description : string;
  StartTime : GoTime.Time;
  EndTime : GoTime.Time;
  Location : string;
  Organizer : string;
  Attendees : list string;
  Source : string;
  UID : string
}.

Definition set_UID (e : Event) (uid : string) : Event :=
  {| ID := ID e; Title := Title e; Description := Description e;
     StartTime := StartTime e; EndTime := EndTime e; Location := Location e;
     Organizer := Organizer e; Attendees := Attendees e; Source := Source e;
     UID := uid |}.

Definition set_StartTime (e : Event) (t : GoTime.Time) : Event :=
  {| ID := ID e; Title := Title e; Description := Description e;
     StartTime := t; EndTime := EndTime e; Location := Location e;
     Organizer := Organizer e; Attendees := Attendees e; Source := Source e;
     UID := UID e |}.

Definition set_EndTime (e : Event) (t : GoTime.Time) : Event :=
  {| ID := ID e; Title := Title e; Description := Description e;
     StartTime := StartTime e; EndTime := t; Location := Location e;
     Organizer := Organizer e; Attendees := Attendees e; Source := Source e;
     UID := UID e |}.

(** [type SyncState map[string]string].  A Go map value is either [nil] or
    an allocated table; reading a nil map finds nothing, writing to it
    panics. *)
Inductive SyncState :=
| nil_map
| alloc (m : gmap string string).

(** [v, exists := st[k]] *)
Definition map_index (st : SyncState) (k : string) : option string :=
  match st with
  | nil_map => None
  | alloc m => m !! k
  end.

(** [st[k] = v]; [None] stands for the run-time panic on a nil map. *)
Definition map_assign (st : SyncState) (k v : string) : option SyncState :=
  match st with
  | nil_map => None
  | alloc m => Some (alloc (<[k := v]> m))
  end.

(** [make(SyncState)] *)
Definition make_SyncState : SyncState := alloc ∅.

(** [*google.CalendarClient], one per authenticated account. *)
Record CalendarClient := { account : string }.

(** [*icloud.CalDAVClient], bound to one destination calendar. *)
Record CalDAVClient := { calendarURL : string }.

(** [syncer.Syncer] (the logger writes to the world's log). *)
Record Syncer := {
  googleClients : list CalendarClient;
  googleCalIDs : list string;
  icloudClient : CalDAVClient;
  state : SyncState;
  dryRun : bool;
  primaryTimeZone : GoTime.Location
}.

Definition set_state (s : Syncer) (st : SyncState) : Syncer :=
  {| googleClients := googleClients s; googleCalIDs := googleCalIDs s;
     icloudClient := icloudClient s; state := st; dryRun := dryRun s;
     primaryTimeZone := primaryTimeZone s |}.

Definition stateFile : string := "sync-state.json".

(** ** The world outside the process *)

Inductive Level := Debug | Info | Warn | Error.

Record LogEntry := { level : Level; message : string }.

(** One invocation of the destination create operation
    ([CalDAVClient.SyncEvent]): the event handed over and what came back. *)
Record CreateCall := { created : Event; outcome : option error }.

Record World := {
  clock : nat;                      (* number of external calls so far *)
  file : GoOS.FileState;            (* what is stored under [stateFile] *)
  icloud_calls : list CreateCall;   (* create invocations, newest first *)
  log : list LogEntry               (* log lines, newest first *)
}.

(** The behaviour of the libraries and remote services; the [nat] argument
    of an oracle is the world's clock at the time of the call, so the same
    request can be answered differently at different times. *)
Record Env := {
  (* encoding/json on [SyncState] *)
  json_MarshalIndent : SyncState -> error + string;
  json_Unmarshal : string -> string + SyncState;
  (* Google Calendar API behind [GetUpcomingEvents] *)
  google_events : nat -> CalendarClient -> string -> nat -> error + list Event;
  (* CalDAV server behind [SyncEvent]: opening the resource of the event,
     then sending its iCalendar encoding *)
  caldav_create : nat -> CalDAVClient -> Event -> option error;
  caldav_encode : nat -> CalDAVClient -> Event -> option error;
  (* [os.WriteFile]: success, or an errno and what is left on disk *)
  fs_write : nat -> string -> option (Errno * GoOS.FileState);
  (* random source: call time, byte index *)
  random : nat -> nat -> Z
}.

(** ** Outcomes and the monad of effectful code *)

Inductive Res (A : Type) : Type :=
| Ret (a : A) (w : World)
| Panic (msg : string) (w : World).
Arguments Ret {A} a w.
Arguments Panic {A} msg w.

Definition M (A : Type) : Type := World -> Res A.

#[global] Instance M_ret : MRet M := fun A a w => Ret a w.

#[global] Instance M_bind : MBind M := fun A B f m w =>
  match m w with
  | Ret a w' => f a w'
  | Panic msg w' => Panic msg w'
  end.

Definition panic {A} (msg : string) : M A := fun w => Panic msg w.

(** The world a computation leaves behind, however it ends. *)
Definition world_of {A} (r : Res A) : World :=
  match r with
  | Ret _ w => w
  | Panic _ w => w
  end.

Definition tick : M nat := fun w =>
  Ret (clock w)
      {| clock := S (clock w); file := file w;
         icloud_calls := icloud_calls w; log := log w |}.

Definition logf (lvl : Level) (msg : string) : M unit := fun w =>
  Ret tt
      {| clock := clock w; file := file w; icloud_calls := icloud_calls w;
         log := {| level := lvl; message := msg |} :: log w |}.

Definition record_call (c : CreateCall) : M unit := fun w =>
  Ret tt
      {| clock := clock w; file := file w;
         icloud_calls := c :: icloud_calls w; log := log w |}.

Definition read_file : M GoOS.FileState := fun w => Ret (file w) w.

Definition store_file (f : GoOS.FileState) : M unit := fun w =>
  Ret tt
      {| clock := clock w; file := f; icloud_calls := icloud_calls w;
         log := log w |}.

(** ** The program *)

Section Program.

Variable env : Env.

(** *** Standard library calls with effects *)

(** [os.ReadFile(path)] on the state file. *)
Definition os_ReadFile (path : string) : M (string * option error) :=
  f ← read_file;
  match f with
  | GoOS.Absent => mret (EmptyString, Some (PathError "open" path ENOENT))
  | GoOS.Unreadable errno =>
      mret (EmptyString, Some (PathError "read" path errno))
  | GoOS.Present data => mret (data, None)
  end.

(** [os.WriteFile(path, data, 0644)] on the state file. *)
Definition os_WriteFile (path data : string) : M (option error) :=
  t ← tick;
  match fs_write env t data with
  | None => store_file (GoOS.Present data);; mret None
  | Some (errno, residue) =>
      store_file residue;; mret (Some (PathError "write" path errno))
  end.

(** *** internal/icloud *)

(** [icloud.GenerateUID]: [uuid.New().String()]. *)
Definition GenerateUID : M string :=
  t ← tick;
  mret (Uuid.String (Uuid.NewRandom (random env t))).

(** What the two requests of [SyncEvent] come back with at clock [t]:
    [webdavClient.Create] on the path of the event, then
    [ical.NewEncoder(writer).Encode]. *)
Definition caldav_answer (t : nat) (c : CalDAVClient) (event : Event)
  : option error :=
  match caldav_create env t c event with
  | Some e => Some (Errorf "failed to create event on CalDAV server" e)
  | None =>
      match caldav_encode env t c event with
      | Some e => Some (Errorf "failed to encode event to iCal format" e)
      | None => None
      end
  end.

(** [CalDAVClient.SyncEvent]: the destination create operation. *)
Definition SyncEvent (c : CalDAVClient) (event : Event)
  : M (option error) :=
  logf Debug "Syncing event to iCloud";;
  t ← tick;
  let answer := caldav_answer t c event in
  record_call {| created := event; outcome := answer |};;
  match answer with
  | Some e => mret (Some e)
  | None => logf Info "Successfully synced event to iCloud";; mret None
  end.

(** *** internal/google *)

(** [CalendarClient.GetUpcomingEvents]: the source fetch operation. *)
Definition GetUpcomingEvents (c : CalendarClient) (calendarID : string)
    (days : nat) : M (list Event * option error) :=
  logf Debug "Fetching upcoming events";;
  t ← tick;
  match google_events env t c calendarID days with
  | inl e => mret ([], Some (Errorf "failed to retrieve events" e))
  | inr events =>
      logf Info "Successfully fetched events from Google Calendar";;
      mret (events, None)
  end.

(** *** internal/syncer *)

(** [loadState] *)
Definition loadState : M (SyncState * option error) :=
  '(data, err) ← os_ReadFile stateFile;
  match err with
  | Some e => mret (nil_map, Some e)
  | None =>
      match json_Unmarshal env data with
      | inl detail => mret (nil_map, Some (JSONError detail))
      | inr st => mret (st, None)
      end
  end.

(** [Syncer.saveState] *)
Definition saveState (s : Syncer) : M (option error) :=
  match json_MarshalIndent env (state s) with
  | inl e => mret (Some (Errorf "failed to marshal sync state" e))
  | inr data => os_WriteFile stateFile data
  end.

(** [NewSyncer] *)
Definition NewSyncer (gClients : list CalendarClient)
    (gCalIDs : list string) (iClient : CalDAVClient) (dry : bool)
    (tz : GoTime.Location) : M (option Syncer * option error) :=
  let build st :=
    {| googleClients := gClients; googleCalIDs := gCalIDs;
       icloudClient := iClient; state := st; dryRun := dry;
       primaryTimeZone := tz |} in
  '(st, err) ← loadState;
  match err with
  | Some e =>
      if GoOS.IsNotExist e then
        logf Info "No sync state file found, starting fresh.";;
        mret (Some (build make_SyncState), None)
      else mret (None, Some (Errorf "failed to load sync state" e))
  | None => mret (Some (build st), None)
  end.

(** The inner loop of [fetchAllGoogleEvents]: the calendars of one
    client. *)
Fixpoint fetch_calendars (client : CalendarClient)
    (calendarIDs : list string) (allEvents : list Event)
  : M (list Event) :=
  match calendarIDs with
  | [] => mret allEvents
  | calID :: rest =>
      '(events, err) ← GetUpcomingEvents client calID 7;
      match err with
      | Some _ =>
          logf Error "Could not fetch events for a google calendar";;
          fetch_calendars client rest allEvents
      | None => fetch_calendars client rest (allEvents ++ events)
      end
  end.

(** The outer loop of [fetchAllGoogleEvents]: the clients. *)
Fixpoint fetch_clients (clients : list CalendarClient)
    (calendarIDs : list string) (allEvents : list Event)
  : M (list Event) :=
  match clients with
  | [] => mret allEvents
  | client :: rest =>
      allEvents' ← fetch_calendars client calendarIDs allEvents;
      fetch_clients rest calendarIDs allEvents'
  end.

(** [Syncer.fetchAllGoogleEvents] *)
Definition fetchAllGoogleEvents (s : Syncer)
  : M (list Event * option error) :=
  match googleCalIDs s with
  | [] => panic "index out of range [0] with length 0"
  | first :: _ =>
      let calendarIDs := GoStrings.Split first ","%char in
      allEvents ← fetch_clients (googleClients s) calendarIDs [];
      mret (allEvents, None)
  end.

(** [Syncer.syncEvent].  Both the syncer and the event are reached
    through pointers; their values after the call are returned. *)
Definition syncEvent (s : Syncer) (event : Event)
  : M (option error * Syncer * Event) :=
  match map_index (state s) (ID event) with
  | Some _ =>
      logf Debug "Event already synced, skipping.";;
      mret (None, s, event)
  | None =>
      logf Info "New event found, syncing to iCloud.";;
      event ← (if decide (UID event = EmptyString) then
                 logf Warn "Google event has no UID, generating a new one.";;
                 uid ← GenerateUID;
                 mret (set_UID event uid)
               else mret event);
      let event :=
        set_StartTime event
          (GoTime.In (StartTime event) (primaryTimeZone s)) in
      let event :=
        set_EndTime event
          (GoTime.In (EndTime event) (primaryTimeZone s)) in
      if dryRun s then
        logf Info "[DRY RUN] Would create new event in iCloud";;
        mret (None, s, event)
      else
        err ← SyncEvent (icloudClient s) event;
        match err with
        | Some e =>
            mret (Some (Errorf "failed to sync event to icloud" e), s, event)
        | None =>
            match map_assign (state s) (ID event) (UID event) with
            | None => panic "assignment to entry in nil map"
            | Some st => mret (None, set_state s st, event)
            end
        end
  end.

(** The event loop of [Sync].  The source adapter allocates every event it
    returns afresh, so the events of a cycle are distinct objects and what
    an iteration writes into its event is not seen by a later one. *)
Fixpoint sync_events (s : Syncer) (events : list Event) : M Syncer :=
  match events with
  | [] => mret s
  | event :: rest =>
      '(err, s', _) ← syncEvent s event;
      match err with
      | Some _ => logf Error "Failed to sync event"
      | None => mret tt
      end;;
      sync_events s' rest
  end.

(** [Syncer.Sync]: one synchronisation cycle. *)
Definition Sync (s : Syncer) : M (option error * Syncer) :=
  logf Info "Starting sync cycle.";;
  '(googleEvents, err) ← fetchAllGoogleEvents s;
  match err with
  | Some e => mret (Some (Errorf "failed to fetch google events" e), s)
  | None =>
      logf Info "Fetched all Google events.";;
      s' ← sync_events s googleEvents;
      (if negb (dryRun s') then
         err ← saveState s';
         match err with
         | Some _ => logf Error "Failed to save sync state"
         | None => mret tt
         end
       else mret tt);;
      logf Info "Sync cycle finished.";;
      mret (None, s')
  end.

End Program.

(** ** Vocabulary of the specification *)

Section Vocabulary.

Variable env : Env.

(** [extends w w1 new]: from [w] to [w1] the state file is untouched and
    exactly the create invocations [new] (newest first) were made. *)
Definition extends (w w1 : World) (new : list CreateCall) : Prop :=
  file w1 = file w ∧ icloud_calls w1 = new ++ icloud_calls w.

(** The event as [syncEvent] leaves it when it does not skip it: a UID is
    drawn at the current clock if the event has none, and both times are
    moved to the primary time zone. *)
Definition normalized (s : Syncer) (e : Event) (w : World) : Event :=
  let uid :=
    if decide (UID e = EmptyString)
    then Uuid.String (Uuid.NewRandom (random env (clock w)))
    else UID e in
  set_EndTime
    (set_StartTime (set_UID e uid)
       (GoTime.In (StartTime e) (primaryTimeZone s)))
    (GoTime.In (EndTime e) (primaryTimeZone s)).

Definition call (e : Event) (r : option error) : CreateCall :=
  {| created := e; outcome := r |}.

Inductive syncEvent_case (s : Syncer) (e : Event) (w : World)
  : Res (option error * Syncer * Event) → Prop :=
| case_skip v w1 :
    map_index (state s) (ID e) = Some v →
    extends w w1 [] →
    syncEvent_case s e w (Ret (None, s, e) w1)
| case_dry_run w1 :
    map_index (state s) (ID e) = None →
    dryRun s = true →
    extends w w1 [] →
    syncEvent_case s e w (Ret (None, s, normalized s e w) w1)
| case_create_failed x w1 :
    map_index (state s) (ID e) = None →
    dryRun s = false →
    extends w w1 [call (normalized s e w) (Some x)] →
    syncEvent_case s e w
      (Ret (Some (Errorf "failed to sync event to icloud" x), s,
            normalized s e w) w1)
| case_created m w1 :
    state s = alloc m →
    m !! ID e = None →
    dryRun s = false →
    extends w w1 [call (normalized s e w) None] →
    syncEvent_case s e w
      (Ret (None,
            set_state s (alloc (<[ID e := UID (normalized s e w)]> m)),
            normalized s e w) w1)
| case_nil_map w1 :
    state s = nil_map →
    dryRun s = false →
    extends w w1 [call (normalized s e w) None] →
    syncEvent_case s e w (Panic "assignment to entry in nil map" w1).

(** [e'] is [e] up to its UID and the location its two times are presented
    in: the instants of both times and every other field are the same. *)
Definition same_up_to_uid_and_zone (e e' : Event) : Prop :=
  GoTime.Equal (StartTime e') (StartTime e) = true ∧
  GoTime.Equal (EndTime e') (EndTime e) = true ∧
  ID e' = ID e ∧ Title e' = Title e ∧ Description e' = Description e ∧
  Location e' = Location e ∧ Organizer e' = Organizer e ∧
  Attendees e' = Attendees e ∧ Source e' = Source e.

(** The world in which the loop of [Sync] moves on to the next event:
    a returned error has been logged. *)
Definition after_event (err : option error) (w : World) : World :=
  match err with
  | Some _ => world_of (logf Error "Failed to sync event" w)
  | None => w
  end.

(** The configuration of a syncer never changes, only its state map. *)
Definition same_config (s s' : Syncer) : Prop :=
  s' = set_state s (state s').

(** What holds when the loop returns the syncer [s'] after the create
    invocations [new]. *)
Record loop_returns (s : Syncer) (evs : list Event)
    (new : list CreateCall) (s' : Syncer) : Prop := {
  lr_config : same_config s s';
  lr_alloc : state s = nil_map ↔ state s' = nil_map;
  lr_kept : ∀ k v,
    map_index (state s) k = Some v → map_index (state s') k = Some v;
  lr_origin : ∀ k v,
    map_index (state s') k = Some v →
    map_index (state s) k = Some v ∨
    ∃ c, c ∈ new ∧ outcome c = None ∧
         ID (created c) = k ∧ UID (created c) = v;
  lr_unchanged : (∀ c, c ∈ new → outcome c ≠ None) → s' = s;
  lr_all_synced : dryRun s = false →
    (∀ c, c ∈ new → outcome c = None) →
    ∀ e, e ∈ evs → is_Some (map_index (state s') (ID e));
  lr_attempted : dryRun s = false →
    ∀ e, e ∈ evs → map_index (state s) (ID e) = None →
    ∃ c, c ∈ new ∧ ID (created c) = ID e
}.

(** What holds of every create invocation made by the loop. *)
Definition call_justified (s : Syncer) (evs : list Event)
    (c : CreateCall) : Prop :=
  dryRun s = false ∧
  map_index (state s) (ID (created c)) = None ∧
  UID (created c) ≠ EmptyString ∧
  ∃ e, e ∈ evs ∧ ID e = ID (created c).

(** The one way the loop panics: the state is a nil map and the newest
    create invocation succeeded. *)
Definition panicked (s : Syncer) (new : list CreateCall) : Prop :=
  state s = nil_map ∧ dryRun s = false ∧
  ∃ c older, new = c :: older ∧ outcome c = None.

Definition loop_outcome (s : Syncer) (evs : list Event)
    (new : list CreateCall) (r : Res Syncer) : Prop :=
  match r with
  | Ret s' _ => loop_returns s evs new s'
  | Panic _ _ => panicked s new
  end.

(** The fetches of one cycle, in the order in which they are made: for
    each client, each calendar ID listed in the first element of
    [googleCalIDs]. *)
Definition fetch_plan (s : Syncer) : list (CalendarClient * string) :=
  match googleCalIDs s with
  | [] => []
  | first :: _ =>
      list_prod (googleClients s) (GoStrings.Split first ","%char)
  end.

(** The events of the fetches that succeed, when the fetches of [plan]
    are made one after the other from clock [t] on. *)
Fixpoint collect (t : nat) (plan : list (CalendarClient * string))
  : list Event :=
  match plan with
  | [] => []
  | (c, calID) :: rest =>
      match google_events env t c calID 7 with
      | inr events => events
      | inl _ => []
      end ++ collect (S t) rest
  end.

(** The events a cycle started in world [w] works on. *)
Definition events_fetched (s : Syncer) (w : World) : list Event :=
  collect (clock w) (fetch_plan s).

(** How a cycle that leaves its event loop with syncer [s'] in world [w1]
    ends in world [w']: no further create invocation; in a dry run the
    state file is untouched; otherwise it holds what the write of the
    encoded state left there, and a failure to save shows in the log
    only. *)
Definition cycle_end (s' : Syncer) (w1 w' : World) : Prop :=
  let finished := {| level := Info; message := "Sync cycle finished." |} in
  let save_failed :=
    {| level := Error; message := "Failed to save sync state" |} in
  icloud_calls w' = icloud_calls w1 ∧
  if dryRun s' then file w' = file w1 ∧ log w' = finished :: log w1
  else match json_MarshalIndent env (state s') with
       | inl _ =>
           file w' = file w1 ∧ log w' = finished :: save_failed :: log w1
       | inr data =>
           match fs_write env (clock w1) data with
           | None =>
               file w' = GoOS.Present data ∧ log w' = finished :: log w1
           | Some (_, residue) =>
               file w' = residue ∧
               log w' = finished :: save_failed :: log w1
           end
       end.

(** The create invocations made between two worlds, newest first. *)
Definition calls_since (w w1 : World) : list CreateCall :=
  take (length (icloud_calls w1) - length (icloud_calls w)) (icloud_calls w1).

(** The state of [s1] is what the state file in [w1] holds. *)
Definition persisted (s1 : Syncer) (w1 : World) : Prop :=
  ∃ data,
    json_MarshalIndent env (state s1) = inr data ∧
    file w1 = GoOS.Present data.


End Vocabulary.

(** ** A reference codec for the state file

    The part of [encoding/json] that the state file needs: a flat object
    of string members, indented by two spaces, or [null].  Keys and values
    are taken to need no escaping. *)

Module FlatJSON.

Definition quote : ascii := ascii_of_nat 34.
Definition newline : string := String (ascii_of_nat 10) EmptyString.

Definition quoted (s : string) : string :=
  String quote (s +:+ String quote EmptyString).

Fixpoint members (kvs : list (string * string)) : string :=
  match kvs with
  | [] => EmptyString
  | (k, v) :: rest =>
      "  " +:+ quoted k +:+ ": " +:+ quoted v +:+
      match rest with
      | [] => EmptyString
      | _ :: _ => "," +:+ newline +:+ members rest
      end
  end.

(** [json.MarshalIndent(state, "", "  ")] *)
Definition MarshalIndent (st : SyncState) : error + string :=
  match st with
  | nil_map => inr "null"
  | alloc m =>
      match map_to_list m with
      | [] => inr "{}"
      | kvs => inr ("{" +:+ newline +:+ members kvs +:+ newline +:+ "}")
      end
  end.

(** The quoted strings of a text, in order; [None] if a string is left
    open. *)
Fixpoint strings_of (s : string) (inside : bool) (cur : string)
    (acc : list string) : option (list string) :=
  match s with
  | EmptyString => if inside then None else Some (reverse acc)
  | String c rest =>
      if decide (c = quote) then
        if inside then strings_of rest false EmptyString (String.rev cur :: acc)
        else strings_of rest true EmptyString acc
      else if inside then strings_of rest true (String c cur) acc
      else strings_of rest false cur acc
  end.

Fixpoint pair_up (l : list string) : option (list (string * string)) :=
  match l with
  | [] => Some []
  | k :: v :: rest => cons (k, v) <$> pair_up rest
  | _ => None
  end.

(** [json.Unmarshal(data, &state)]: [null] leaves the map nil. *)
Definition Unmarshal (data : string) : string + SyncState :=
  if decide (data = "null") then inr nil_map
  else match data with
       | String "{" _ =>
           match strings_of data false EmptyString [] ≫= pair_up with
           | Some kvs => inr (alloc (list_to_map (reverse kvs)))
           | None => inl "unexpected end of JSON input"
           end
       | _ => inl "cannot unmarshal into Go value of type syncer.SyncState"
       end.

End FlatJSON.

(** ** Scenarios *)

Module Scenario.

Definition utc : GoTime.Location := {| GoTime.zone := "UTC" |}.
Definition lisbon : GoTime.Location := {| GoTime.zone := "Europe/Lisbon" |}.

Definition at_ (sec : Z) : GoTime.Time :=
  {| GoTime.unix_sec := sec; GoTime.nsec := 0; GoTime.loc := utc |}.

Definition event (id title uid : string) : Event :=
  {| ID := id; Title := title; Description := EmptyString;
     StartTime := at_ 1700000000; EndTime := at_ 1700003600;
     Location := EmptyString; Organizer := EmptyString; Attendees := [];
     Source := "google-primary"; UID := uid |}.

(** The events of the two example scenarios of the specification. *)
Definition A : Event := event "g1" "A" EmptyString.
Definition B : Event := event "g2" "B" "uid-b".
Definition C : Event := event "g3" "C" "uid-c".

Definition personal : CalendarClient := {| account := "personal" |}.
Definition home : CalDAVClient :=
  {| calendarURL := "https://caldav.icloud.com/1/calendars/home/" |}.

(** An environment in which every fetch returns [events], every create
    is answered by [create], and every write succeeds. *)
Definition env_with (events : list Event) (create : Event → option error)
  : Env :=
  {| json_MarshalIndent := FlatJSON.MarshalIndent;
     json_Unmarshal := FlatJSON.Unmarshal;
     google_events := fun _ _ _ _ => inr events;
     caldav_create := fun _ _ e => create e;
     caldav_encode := fun _ _ _ => None;
     fs_write := fun _ _ => None;
     random := fun t i => Z.of_nat (37 * t + 11 * i + 5) |}.

Definition syncer_with (st : SyncState) (dry : bool) : Syncer :=
  {| googleClients := [personal]; googleCalIDs := ["primary"];
     icloudClient := home; state := st; dryRun := dry;
     primaryTimeZone := lisbon |}.

Definition world_with (f : GoOS.FileState) : World :=
  {| clock := 0; file := f; icloud_calls := []; log := [] |}.

End Scenario.

(** ** More of the standard library *)

(** [s[n:]] and [s[:n]] on byte strings. *)
Fixpoint string_drop (n : nat) (s : string) : string :=
  match n, s with
  | S n', String _ rest => string_drop n' rest
  | _, _ => s
  end.

Fixpoint string_take (n : nat) (s : string) : string :=
  match n, s with
  | S n', String c rest => String c (string_take n' rest)
  | _, _ => EmptyString
  end.

(** [strings.HasPrefix(s, prefix)] *)
Fixpoint strings_HasPrefix (s prefix : string) : bool :=
  match prefix, s with
  | EmptyString, _ => true
  | String p prefix', String c s' =>
      if decide (c = p) then strings_HasPrefix s' prefix' else false
  | String _ _, EmptyString => false
  end.

(** [strings.HasSuffix(s, suffix)]:
    [len(s) >= len(suffix) && s[len(s)-len(suffix):] == suffix] *)
Definition strings_HasSuffix (s suffix : string) : bool :=
  bool_decide (String.length suffix ≤ String.length s)%nat &&
  bool_decide
    (string_drop (String.length s - String.length suffix) s = suffix).

(** [strings.TrimPrefix(s, prefix)] *)
Definition strings_TrimPrefix (s prefix : string) : string :=
  if strings_HasPrefix s prefix then string_drop (String.length prefix) s
  else s.

(** [strings.TrimSuffix(s, suffix)] *)
Definition strings_TrimSuffix (s suffix : string) : string :=
  if strings_HasSuffix s suffix
  then string_take (String.length s - String.length suffix) s
  else s.

(** ** internal/google: token files *)

(** The file that holds the token of an account:
    ["token-" + accountName + ".json"] in the [auth] command,
    [fmt.Sprintf("token-%s.json", accountName)] in [google.NewClient]. *)
Definition tokenFile (accountName : string) : string :=
  "token-" +:+ accountName +:+ ".json".

(** [google.GetTokenAccounts], on what [os.ReadDir(".")] returns: the names
    of the directory entries, or an error. *)
Definition GetTokenAccounts (readdir : error + list string)
  : list string * option error :=
  match readdir with
  | inl err => ([], Some err)
  | inr files =>
      (foldl (λ accounts name,
                if strings_HasPrefix name "token-" &&
                   strings_HasSuffix name ".json"
                then accounts ++
                     [strings_TrimSuffix (strings_TrimPrefix name "token-")
                        ".json"]
                else accounts) [] files,
       None)
  end.

(** ** internal/google: converting the events of the API *)

(** The types of [google.golang.org/api/calendar/v3] that the conversion
    reads.  Pointer fields are options: [None] is a nil pointer. *)
Module GCal.

Record EventDateTime := {
  Date : string;
  DateTime : string;
  TimeZone : string
}.

Record EventOrganizer := { OrganizerEmail : string }.

Record EventAttendee := { AttendeeEmail : string }.

Record Event := {
  Id : string;
  Summary : string;
  Description : string;
  Location : string;
  ICalUID : string;
  Start : option EventDateTime;
  End_ : option EventDateTime;
  Organizer : option EventOrganizer;
  Attendees : list (option EventAttendee)
}.

End GCal.

(** The result of code that has no effect on the world but may panic. *)
Inductive Pure (A : Type) : Type :=
| Value (a : A)
| Panics (msg : string).
Arguments Value {A} a.
Arguments Panics {A} msg.

Definition nil_dereference : string :=
  "invalid memory address or nil pointer dereference".

(** The zero [time.Time]: January 1, year 1, 00:00:00 UTC. *)
Definition zero_Time : GoTime.Time :=
  {| GoTime.unix_sec := -62135596800; GoTime.nsec := 0;
     GoTime.loc := {| GoTime.zone := "UTC" |} |}.

Section Conversion.

(** [time.Parse(time.RFC3339, value)]; [None] is a parse error. *)
Variable time_Parse_RFC3339 : string → option GoTime.Time.

(** [t, _ := time.Parse(time.RFC3339, value)]: the error is dropped and the
    zero time kept. *)
Definition parsed_or_zero (value : string) : GoTime.Time :=
  match time_Parse_RFC3339 value with
  | Some t => t
  | None => zero_Time
  end.

(** The loop over [item.Attendees]. *)
Fixpoint attendee_emails (attendees : list (option GCal.EventAttendee))
  : Pure (list string) :=
  match attendees with
  | [] => Value []
  | None :: _ => Panics nil_dereference
  | Some a :: rest =>
      match attendee_emails rest with
      | Value emails => Value (GCal.AttendeeEmail a :: emails)
      | Panics msg => Panics msg
      end
  end.

(** [CalendarClient.toInternalEvents].  An item is skipped when it has no
    start or no start [DateTime]; for the others [item.End], the attendees
    and [item.Organizer] are dereferenced, in this order. *)
Fixpoint toInternalEvents (googleEvents : list GCal.Event) (source : string)
  : Pure (list Event) :=
  match googleEvents with
  | [] => Value []
  | item :: rest =>
      let timed :=
        match GCal.Start item with
        | None => None
        | Some start =>
            if decide (GCal.DateTime start = EmptyString) then None
            else Some start
        end in
      match timed with
      | None => toInternalEvents rest source
      | Some start =>
          match GCal.End_ item with
          | None => Panics nil_dereference
          | Some end_ =>
              match attendee_emails (GCal.Attendees item) with
              | Panics msg => Panics msg
              | Value attendees =>
                  match GCal.Organizer item with
                  | None => Panics nil_dereference
                  | Some organizer =>
                      let event :=
                        {| ID := GCal.Id item;
                           Title := GCal.Summary item;
                           Description := GCal.Description item;
                           StartTime :=
                             parsed_or_zero (GCal.DateTime start);
                           EndTime := parsed_or_zero (GCal.DateTime end_);
                           Location := GCal.Location item;
                           Organizer := GCal.OrganizerEmail organizer;
                           Attendees := attendees;
                           Source := "google-" +:+ source;
                           UID := GCal.ICalUID item |} in
                      match toInternalEvents rest source with
                      | Value events => Value (event :: events)
                      | Panics msg => Panics msg
                      end
                  end
              end
          end
      end
  end.

End Conversion.

(** An item with a start [DateTime]: not an all-day event. *)
Definition is_timed (item : GCal.Event) : Prop :=
  ∃ start, GCal.Start item = Some start ∧ GCal.DateTime start ≠ EmptyString.

#[global] Instance is_timed_dec item : Decision (is_timed item).
Proof.
  unfold is_timed. destruct (GCal.Start item) as [start|].
  - destruct (decide (GCal.DateTime start = EmptyString)) as [He|Hne].
    + right. intros (? & [= <-] & ?). done.
    + left. by exists start.
  - right. by intros (? & [=] & _).
Defined.


(** ** The [path] package *)

(** One element of a path being cleaned: empty elements and [.] are
    dropped, [..] removes the element before it, or stays when there is
    none to remove and the path is not rooted. *)
Definition clean_step (rooted : bool) (kept : list string) (element : string)
  : list string :=
  if decide (element = EmptyString ∨ element = ".") then kept
  else if decide (element = "..") then
    match last kept with
    | None => if rooted then [] else [".."]
    | Some previous =>
        if decide (previous = "..") then kept ++ [".."]
        else removelast kept
    end
  else kept ++ [element].

(** [path.Clean] *)
Definition path_Clean (p : string) : string :=
  match p with
  | EmptyString => "."
  | String first _ =>
      let rooted := bool_decide (first = "/"%char) in
      let kept := foldl (clean_step rooted) [] (GoStrings.Split p "/"%char) in
      let body := String.concat "/" kept in
      if rooted then "/" +:+ body
      else if decide (body = EmptyString) then "." else body
  end.

(** [path.Join]: empty leading elements are skipped, the others
    are joined by slashes, and the result is cleaned; all elements empty
    gives the empty string. *)
Definition path_Join (elem : list string) : string :=
  let buf :=
    foldl (λ buf e, if decide (buf = EmptyString) then e
                    else buf +:+ "/" +:+ e) EmptyString elem in
  if decide (buf = EmptyString) then EmptyString else path_Clean buf.

(** ** internal/icloud: finding the calendar, naming the event *)

Definition iCloudCalDAVEndpoint : string := "https://caldav.icloud.com/".

Module CalDAV.

(** [caldav.Calendar], as far as it is read. *)
Record Calendar := { Path : string; Name : string }.

(** What the server answers to the three discovery requests. *)
Record Server := {
  FindCurrentUserPrincipal : error + string;
  FindCalendarHomeSet : string → error + string;
  FindCalendars : string → error + list Calendar
}.

End CalDAV.

(** The loop of [findCalendar]: the URL of the first calendar with the
    name. *)
Fixpoint first_named (calendars : list CalDAV.Calendar) (name : string)
  : string * option error :=
  match calendars with
  | [] =>
      (EmptyString,
       Some (CalDAVError ("no calendar found with name '" +:+ name +:+ "'")))
  | cal :: rest =>
      if decide (CalDAV.Name cal = name) then
        (strings_TrimSuffix iCloudCalDAVEndpoint "/" +:+ CalDAV.Path cal, None)
      else first_named rest name
  end.

(** [CalDAVClient.findCalendar] *)
Definition findCalendar (server : CalDAV.Server) (name : string)
  : string * option error :=
  match CalDAV.FindCurrentUserPrincipal server with
  | inl err =>
      (EmptyString, Some (Errorf "failed to find principal path" err))
  | inr principalPath =>
      match CalDAV.FindCalendarHomeSet server principalPath with
      | inl err =>
          (EmptyString, Some (Errorf "failed to find calendar home set" err))
      | inr homeSetPath =>
          match CalDAV.FindCalendars server homeSetPath with
          | inl err =>
              (EmptyString, Some (Errorf "failed to find calendars" err))
          | inr calendars => first_named calendars name
          end
      end
  end.

(** The path [SyncEvent] creates the event under:
    [path.Join(strings.TrimPrefix(c.calendarURL, iCloudCalDAVEndpoint),
    fmt.Sprintf("%s.ics", event.UID))]. *)
Definition eventPath (c : CalDAVClient) (event : Event) : string :=
  path_Join [strings_TrimPrefix (calendarURL c) iCloudCalDAVEndpoint;
             UID event +:+ ".ics"].

(** A path element that [path.Clean] keeps as it is. *)
Definition plain_element (element : string) : Prop :=
  element ≠ EmptyString ∧ element ≠ "." ∧ element ≠ ".." ∧
  GoStrings.Split element "/"%char = [element].

(** ** What a cycle writes to the log *)

#[global] Instance Level_eq_dec : EqDecision Level.
Proof. solve_decision. Defined.

#[global] Instance LogEntry_eq_dec : EqDecision LogEntry.
Proof. solve_decision. Defined.

(** The lines with which [Sync] and [fetchAllGoogleEvents] report a
    failure, and the line of a dry run. *)
Definition fetch_failed : LogEntry :=
  {| level := Error;
     message := "Could not fetch events for a google calendar" |}.

Definition sync_failed : LogEntry :=
  {| level := Error; message := "Failed to sync event" |}.

Definition save_failed : LogEntry :=
  {| level := Error; message := "Failed to save sync state" |}.

Definition would_create : LogEntry :=
  {| level := Info; message := "[DRY RUN] Would create new event in iCloud" |}.

Definition occurrences (entry : LogEntry) (entries : list LogEntry) : nat :=
  length (filter (λ x, x = entry) entries).

Definition error_lines (entries : list LogEntry) : nat :=
  length (filter (λ x, level x = Error) entries).

Definition failed_calls (calls : list CreateCall) : nat :=
  length (filter (λ c, outcome c ≠ None) calls).

(** The log lines written between two worlds, newest first. *)
Definition logged_since (w w' : World) : list LogEntry :=
  take (length (log w') - length (log w)) (log w').

(** The number of fetches of [plan] that fail, when they are made one after
    the other from clock [t] on. *)
Fixpoint failed_fetches (env : Env) (t : nat)
    (plan : list (CalendarClient * string)) : nat :=
  match plan with
  | [] => 0
  | (c, calID) :: rest =>
      match google_events env t c calID 7 with
      | inl _ => 1
      | inr _ => 0
      end + failed_fetches env (S t) rest
  end.

(** The log [l'] is the log [l] with lines added, among them the given
    numbers of the four lines above and no other line of level [Error]. *)
Definition ledger (l l' : list LogEntry) (fetch sync save dry : nat) : Prop :=
  ∃ entries,
    l' = entries ++ l ∧
    occurrences fetch_failed entries = fetch ∧
    occurrences sync_failed entries = sync ∧
    occurrences save_failed entries = save ∧
    occurrences would_create entries = dry ∧
    error_lines entries = fetch + sync + save.

(** The events of a list that the state does not know. *)
Definition unknown (s : Syncer) (events : list Event) : list Event :=
  filter (λ e, map_index (state s) (ID e) = None) events.

(** ** cmd/syncal: the [sync] command in watch mode *)

(** Arithmetic on [int64] wraps around; [time.Duration] is an [int64]
    count of nanoseconds. *)
Definition int64_wrap (z : Z) : Z := ((z + 2 ^ 63) mod 2 ^ 64 - 2 ^ 63)%Z.

Definition time_Second : Z := 1000000000.

(** The loop [for ; true; <-ticker.C { ... }] of the [sync] command.  It
    has no exit; [watch_cycles n] is its first [n] iterations.  The syncer
    is reached through a pointer, so every cycle starts from the state the
    cycle before left in memory. *)
Fixpoint watch_cycles (env : Env) (n : nat) (s : Syncer) : M Syncer :=
  match n with
  | 0 => mret s
  | S n' =>
      '(err, s') ← Sync env s;
      match err with
      | Some _ => logf Error "Sync cycle failed"
      | None => mret tt
      end;;
      watch_cycles env n' s'
  end.

(** The action of the [sync] command from the point where the syncer is
    built, when [--watch] is set to [seconds]:
    [interval := time.Duration(c.Int("watch")) * time.Second], then
    [time.NewTicker(interval)], which panics unless the interval is
    positive, then the loop. *)
Definition watch (env : Env) (seconds : Z) (n : nat) (s : Syncer)
  : M Syncer :=
  let interval := int64_wrap (seconds * time_Second) in
  logf Info "Starting watcher.";;
  if decide (interval ≤ 0)%Z
  then panic "non-positive interval for NewTicker"
  else watch_cycles env n s.

(** What the create invocations [new] (newest first), made while the
    syncer went from [s] to [s'], have to do with the state. *)
Record remembers (s s' : Syncer) (new : list CreateCall) : Prop := {
  rm_config : same_config s s';
  rm_kept : ∀ k v,
    map_index (state s) k = Some v → map_index (state s') k = Some v;
  rm_new : ∀ c, c ∈ new → map_index (state s) (ID (created c)) = None;
  rm_recorded : ∀ c, c ∈ new → outcome c = None →
    map_index (state s') (ID (created c)) = Some (UID (created c));
  rm_once : ∀ newer c older, new = newer ++ c :: older → outcome c = None →
    ∀ c', c' ∈ newer → ID (created c') ≠ ID (created c)
}.

(** ** Reasoning about worlds *)

Lemma extends_refl w : extends w w [].
Proof. by split. Qed.

Lemma extends_trans w w1 w2 n1 n2 :
  extends w w1 n1 → extends w1 w2 n2 → extends w w2 (n2 ++ n1).
Proof.
  intros [Hf1 Hc1] [Hf2 Hc2]. split.
  - congruence.
  - rewrite Hc2, Hc1. by rewrite app_assoc.
Qed.

Lemma extends_nil_trans w w1 w2 n :
  extends w w1 [] → extends w1 w2 n → extends w w2 n.
Proof.
  intros H1 H2. pose proof (extends_trans _ _ _ _ _ H1 H2) as H.
  by rewrite app_nil_r in H.
Qed.

Lemma extends_trans_nil w w1 w2 n :
  extends w w1 n → extends w1 w2 [] → extends w w2 n.
Proof. intros H1 H2. exact (extends_trans _ _ _ _ _ H1 H2). Qed.

Lemma extends_inj w w1 n1 n2 : extends w w1 n1 → extends w w1 n2 → n1 = n2.
Proof.
  intros [_ H1] [_ H2]. rewrite H1 in H2. by apply app_inv_tail in H2.
Qed.

(** Unfolding of the monad and of the primitive effects. *)
Ltac run :=
  unfold mbind, M_bind, mret, M_ret, panic, logf, tick, record_call,
    read_file, store_file in *;
  cbn [world_of clock file icloud_calls log] in *.

(** ** The UUID string is never empty *)

Lemma encodeHex_length bs :
  String.length (Uuid.encodeHex bs) = 2 * length bs.
Proof.
  induction bs as [|b bs IH]; cbn [Uuid.encodeHex String.length length]; lia.
Qed.

Lemma string_app_length (a b : string) :
  String.length (a +:+ b) = String.length a + String.length b.
Proof. induction a as [|c a IH]; simpl; [done | by rewrite IH]. Qed.

Lemma NewRandom_length rnd : length (Uuid.NewRandom rnd) = 16.
Proof.
  unfold Uuid.NewRandom.
  by rewrite !length_insert, length_fmap, length_seq.
Qed.

Lemma slice_length (u : Uuid.UUID) lo hi :
  (hi ≤ length u)%nat → length (Uuid.slice u lo hi) = hi - lo.
Proof. intros H. unfold Uuid.slice. rewrite length_take, length_drop. lia. Qed.

Lemma Uuid_String_length (u : Uuid.UUID) :
  length u = 16 → String.length (Uuid.String u) = 36.
Proof.
  intros H. unfold Uuid.String.
  rewrite !string_app_length, !encodeHex_length, !slice_length by lia.
  reflexivity.
Qed.

Lemma Uuid_String_nonempty rnd :
  Uuid.String (Uuid.NewRandom rnd) ≠ EmptyString.
Proof.
  intros H. pose proof (Uuid_String_length _ (NewRandom_length rnd)) as HL.
  rewrite H in HL. discriminate.
Qed.

(** ** What [syncEvent] does, case by case *)

Section SyncEvent.

Variable env : Env.

Local Arguments Uuid.NewRandom : simpl never.
Local Arguments Uuid.String : simpl never.

(** [normalized] follows the three assignments of the source one by
    one. *)
Lemma normalized_unfold s e w :
  normalized env s e w =
  let e1 :=
    if decide (UID e = EmptyString)
    then set_UID e (Uuid.String (Uuid.NewRandom (random env (clock w))))
    else e in
  let e2 :=
    set_StartTime e1 (GoTime.In (StartTime e1) (primaryTimeZone s)) in
  set_EndTime e2 (GoTime.In (EndTime e2) (primaryTimeZone s)).
Proof. unfold normalized. destruct e; cbn. by destruct (decide _). Qed.

Lemma syncEvent_cases s e w : syncEvent_case env s e w (syncEvent env s e w).
Proof.
  unfold syncEvent.
  destruct (map_index (state s) (ID e)) as [v|] eqn:Hidx.
  { run. by eapply case_skip. }
  pose proof (normalized_unfold s e w) as Hn. cbv zeta in Hn.
  assert (HID : ID (normalized env s e w) = ID e) by done.
  unfold GenerateUID, SyncEvent.
  destruct (dryRun s) eqn:Hdry.
  - destruct (decide (UID e = EmptyString)) as [Hu|Hu]; run; cbn [clock];
      rewrite <- Hn; by apply case_dry_run.
  - destruct (decide (UID e = EmptyString)) as [Hu|Hu]; run; cbn [clock];
      rewrite <- Hn;
      (destruct (caldav_answer env _ (icloudClient s) (normalized env s e w))
         as [x|] eqn:Hc; cbn;
       [ by apply case_create_failed
       | try rewrite HID; destruct (state s) as [|m] eqn:Hst; cbn;
         [ by apply case_nil_map
         | by apply case_created ] ]).
Qed.

End SyncEvent.

(** ** The event loop of a cycle *)

Section EventLoop.

Variable env : Env.

Lemma after_event_extends err w : extends w (after_event err w) [].
Proof. destruct err; by split. Qed.

Lemma sync_events_nil s w : sync_events env s [] w = Ret s w.
Proof. done. Qed.

(** One iteration of the loop: whatever [syncEvent] returns, the loop goes
    on with the remaining events; only a panic stops it. *)
Lemma sync_events_cons s e rest w :
  sync_events env s (e :: rest) w =
  match syncEvent env s e w with
  | Ret (err, s1, _) w1 => sync_events env s1 rest (after_event err w1)
  | Panic msg w1 => Panic msg w1
  end.
Proof.
  cbn [sync_events]. unfold mbind at 1, M_bind at 1.
  destruct (syncEvent env s e w) as [[[err s1] e1] w1|msg w1]; [|done].
  unfold mbind, M_bind. by destruct err.
Qed.

Lemma same_config_refl s : same_config s s.
Proof. unfold same_config. by destruct s. Qed.

Lemma same_config_set s st : same_config s (set_state s st).
Proof. done. Qed.

Lemma same_config_trans s s1 s2 :
  same_config s s1 → same_config s1 s2 → same_config s s2.
Proof. unfold same_config. intros -> ->. done. Qed.

Lemma same_config_dryRun s s' : same_config s s' → dryRun s' = dryRun s.
Proof. by intros ->. Qed.

Lemma normalized_ID s e w : ID (normalized env s e w) = ID e.
Proof. done. Qed.

Lemma normalized_UID_nonempty s e w :
  UID (normalized env s e w) ≠ EmptyString.
Proof.
  unfold normalized. cbn. destruct (decide (UID e = EmptyString)); [|done].
  apply Uuid_String_nonempty.
Qed.

Lemma loop_returns_nil s : loop_returns s [] [] s.
Proof.
  split;
    [ apply same_config_refl | done | done | by left | done
    | intros _ _ ? He; by apply elem_of_nil in He
    | intros _ ? He; by apply elem_of_nil in He ].
Qed.

Lemma loop_returns_skip s e rest new s' v :
  map_index (state s) (ID e) = Some v →
  loop_returns s rest new s' → loop_returns s (e :: rest) new s'.
Proof.
  intros Hidx [Hcfg Hal Hk Ho Hu Hs Ha].
  split; [done..| |].
  - intros Hd Hok e0 [->|He0]%elem_of_cons; [|by apply Hs].
    rewrite (Hk _ _ Hidx). by eexists.
  - intros Hd e0 [->|He0]%elem_of_cons Hn; [congruence|by apply Ha].
Qed.

Lemma loop_returns_dry s e rest new s' :
  dryRun s = true →
  loop_returns s rest new s' → loop_returns s (e :: rest) new s'.
Proof.
  intros Hdry [Hcfg Hal Hk Ho Hu Hs Ha].
  split; [done..| |]; intros ?; congruence.
Qed.

Lemma loop_returns_failed s e rest new s' n x :
  ID n = ID e →
  loop_returns s rest new s' →
  loop_returns s (e :: rest) (new ++ [call n (Some x)]) s'.
Proof.
  intros HID [Hcfg Hal Hk Ho Hu Hs Ha].
  split; [done|done|done| | | |].
  - intros k v [?|(c & Hc & ?)]%Ho; [by left|right].
    exists c. split; [|done]. apply elem_of_app. by left.
  - intros Hall. apply Hu. intros c Hc. apply Hall, elem_of_app. by left.
  - intros _ Hall. exfalso.
    assert (H : outcome (call n (Some x)) = None)
      by (apply Hall, elem_of_app; right; by apply list_elem_of_singleton).
    discriminate.
  - intros Hd e0 [->|He0]%elem_of_cons Hn.
    + exists (call n (Some x)). split; [|done].
      apply elem_of_app; right. by apply list_elem_of_singleton.
    + destruct (Ha Hd e0 He0 Hn) as (c & Hc & ?). exists c.
      split; [|done]. apply elem_of_app. by left.
Qed.

Lemma loop_returns_created s e rest new s' n m :
  ID n = ID e → state s = alloc m → m !! ID e = None →
  loop_returns (set_state s (alloc (<[ID e := UID n]> m))) rest new s' →
  loop_returns s (e :: rest) (new ++ [call n None]) s'.
Proof.
  intros HID Hst Hidx [Hcfg Hal Hk Ho Hu Hs Ha]. cbn in *.
  assert (Hin : call n None ∈ new ++ [call n None])
    by (apply elem_of_app; right; by apply list_elem_of_singleton).
  split.
  - unfold same_config in *. by rewrite Hcfg.
  - rewrite Hst. split; [done|]. by intros H%Hal.
  - intros k v Hkv. apply Hk. rewrite Hst in Hkv. cbn in Hkv.
    rewrite lookup_insert_ne; [done|]. congruence.
  - intros k v Hkv. apply Ho in Hkv as [Hkv|(c & Hc & ?)].
    + rewrite lookup_insert in Hkv. case_decide as Hk'.
      * right. exists (call n None). cbn. repeat split; congruence.
      * left. by rewrite Hst.
    + right. exists c. split; [|done]. apply elem_of_app. by left.
  - intros Hall. by destruct (Hall _ Hin).
  - intros Hd Hall e0 [->|He0]%elem_of_cons.
    + erewrite Hk; [by eexists|]. by rewrite lookup_insert_eq.
    + apply Hs; [done| |done]. intros c Hc. apply Hall, elem_of_app. by left.
  - intros Hd e0 He0 Hn. destruct (decide (ID e0 = ID e)) as [Heq|Hne].
    + exists (call n None). split; [done|]. cbn. congruence.
    + apply elem_of_cons in He0 as [->|He0]; [done|].
      destruct (Ha Hd e0 He0) as (c & Hc & ?).
      * rewrite Hst in Hn. cbn in Hn. by rewrite lookup_insert_ne.
      * exists c. split; [|done]. apply elem_of_app. by left.
Qed.

Lemma call_justified_tail s e rest c :
  call_justified s rest c → call_justified s (e :: rest) c.
Proof.
  intros (? & ? & ? & e0 & ? & ?). repeat split; try done.
  exists e0. split; [by right|done].
Qed.

Lemma call_justified_head s e w r :
  map_index (state s) (ID e) = None → dryRun s = false →
  ∀ rest, call_justified s (e :: rest) (call (normalized env s e w) r).
Proof.
  intros Hidx Hdry rest. repeat split; try done.
  - apply normalized_UID_nonempty.
  - exists e. split; [by left|done].
Qed.

Lemma call_justified_after s e rest m uid c :
  state s = alloc m →
  call_justified (set_state s (alloc (<[ID e := uid]> m))) rest c →
  call_justified s (e :: rest) c.
Proof.
  intros Hst (Hd & Hn & Hu & e0 & He0 & HID). cbn in *.
  repeat split; try done.
  - rewrite Hst. cbn. apply lookup_insert_None in Hn. tauto.
  - exists e0. split; [by right|done].
Qed.

Lemma panicked_app s new older :
  panicked s new → panicked s (new ++ older).
Proof.
  intros (? & ? & c & l & -> & ?). do 2 (split; [done|]).
  by exists c, (l ++ older).
Qed.

Lemma sync_events_run evs : ∀ s w, ∃ new,
  extends w (world_of (sync_events env s evs w)) new ∧
  Forall (call_justified s evs) new ∧
  loop_outcome s evs new (sync_events env s evs w).
Proof.
  induction evs as [|e rest IH]; intros s w.
  { exists []. split; [apply extends_refl|]. split; [constructor|].
    apply loop_returns_nil. }
  rewrite sync_events_cons.
  pose proof (syncEvent_cases env s e w) as Hc.
  remember (syncEvent env s e w) as r eqn:Hr.
  destruct Hc as [v w1 Hidx Hext|w1 Hidx Hdry Hext|x w1 Hidx Hdry Hext
                 |m w1 Hst Hidx Hdry Hext|w1 Hst Hdry Hext].
  - destruct (IH s (after_event None w1)) as (new & Hext' & Hall & Hout).
    exists new. split; [|split].
    + by eapply extends_nil_trans.
    + eapply Forall_impl; [exact Hall|]. apply call_justified_tail.
    + destruct (sync_events env s rest _); [|done].
      by eapply loop_returns_skip.
  - destruct (IH s (after_event None w1)) as (new & Hext' & Hall & Hout).
    exists new. split; [|split].
    + by eapply extends_nil_trans.
    + eapply Forall_impl; [exact Hall|]. apply call_justified_tail.
    + destruct (sync_events env s rest _); [|done].
      by eapply loop_returns_dry.
  - set (err := Some (Errorf "failed to sync event to icloud" x)).
    destruct (IH s (after_event err w1)) as (new & Hext' & Hall & Hout).
    exists (new ++ [call (normalized env s e w) (Some x)]).
    split; [|split].
    + eapply extends_trans; [exact Hext|].
      eapply extends_nil_trans; [apply after_event_extends|exact Hext'].
    + apply Forall_app. split.
      * eapply Forall_impl; [exact Hall|]. apply call_justified_tail.
      * apply Forall_singleton. by apply call_justified_head.
    + destruct (sync_events env s rest _); [|by apply panicked_app].
      by apply loop_returns_failed.
  - set (s1 := set_state s _).
    destruct (IH s1 (after_event None w1)) as (new & Hext' & Hall & Hout).
    exists (new ++ [call (normalized env s e w) None]).
    split; [|split].
    + eapply extends_trans; [exact Hext|exact Hext'].
    + apply Forall_app. split.
      * eapply Forall_impl; [exact Hall|]. intros c.
        by apply call_justified_after.
      * apply Forall_singleton. apply call_justified_head; [|done].
        by rewrite Hst.
    + destruct (sync_events env s1 rest _) as [s' w'|msg w'];
        [|by destruct Hout].
      by eapply loop_returns_created.
  - exists [call (normalized env s e w) None]. split; [done|]. split.
    + apply Forall_singleton. apply call_justified_head; [|done].
      by rewrite Hst.
    + do 2 (split; [done|]). by eexists _, _.
Qed.

End EventLoop.

(** ** Fetching *)

Section Fetch.

Variable env : Env.

Lemma collect_app t p1 p2 :
  collect env t (p1 ++ p2) = collect env t p1 ++ collect env (t + length p1) p2.
Proof.
  revert t. induction p1 as [|[c calID] p1 IH]; intros t; cbn.
  - by rewrite Nat.add_0_r.
  - rewrite IH, <- app_assoc. do 3 f_equal. lia.
Qed.

Lemma GetUpcomingEvents_run c calID days w :
  ∃ w', clock w' = S (clock w) ∧ extends w w' [] ∧
    GetUpcomingEvents env c calID days w =
    match google_events env (clock w) c calID days with
    | inl e => Ret ([], Some (Errorf "failed to retrieve events" e)) w'
    | inr events => Ret (events, None) w'
    end.
Proof.
  unfold GetUpcomingEvents. run.
  destruct (google_events env (clock w) c calID days); eexists;
    (split; [|split; [|reflexivity]]); done.
Qed.

Lemma fetch_calendars_run c calendarIDs : ∀ allEvents w,
  ∃ w', clock w' = clock w + length calendarIDs ∧ extends w w' [] ∧
    fetch_calendars env c calendarIDs allEvents w =
    Ret (allEvents ++ collect env (clock w) (pair c <$> calendarIDs)) w'.
Proof.
  induction calendarIDs as [|calID rest IH]; intros allEvents w.
  { exists w. cbn. rewrite app_nil_r. split; [lia|]. by split. }
  cbn [fetch_calendars]. unfold mbind at 1, M_bind at 1.
  destruct (GetUpcomingEvents_run c calID 7 w) as (w1 & Hck & Hext & ->).
  cbn [fmap list_fmap collect].
  destruct (google_events env (clock w) c calID 7) as [e|events].
  - unfold mbind, M_bind, logf.
    match goal with |- context [fetch_calendars env c rest allEvents ?w2] =>
      destruct (IH allEvents w2) as (w' & Hck' & Hext' & ->) end.
    cbn in Hck'. exists w'. rewrite <- Hck. split; [cbn; lia|].
    split; [|by rewrite Hck].
    eapply extends_nil_trans; [exact Hext|].
    eapply extends_nil_trans; [|exact Hext']. by split.
  - destruct (IH (allEvents ++ events) w1) as (w' & Hck' & Hext' & ->).
    exists w'. split; [cbn; lia|]. split; [by eapply extends_nil_trans|].
    by rewrite Hck, app_assoc.
Qed.

Lemma fetch_clients_run clients calendarIDs : ∀ allEvents w,
  ∃ w', extends w w' [] ∧
    fetch_clients env clients calendarIDs allEvents w =
    Ret (allEvents ++ collect env (clock w) (list_prod clients calendarIDs)) w'.
Proof.
  induction clients as [|c rest IH]; intros allEvents w.
  { exists w. cbn. rewrite app_nil_r. by split. }
  cbn [fetch_clients list_prod]. unfold mbind, M_bind.
  destruct (fetch_calendars_run c calendarIDs allEvents w)
    as (w1 & Hck & Hext & ->).
  destruct (IH (allEvents ++ collect env (clock w) (pair c <$> calendarIDs)) w1)
    as (w' & Hext' & ->).
  exists w'. split; [by eapply extends_nil_trans|].
  rewrite collect_app, length_fmap, Hck, app_assoc. done.
Qed.

(** With at least one configured ID string, fetching returns the events
    of the successful fetches and a nil error. *)
Lemma fetchAllGoogleEvents_run s w :
  googleCalIDs s ≠ [] →
  ∃ w', extends w w' [] ∧
    fetchAllGoogleEvents env s w = Ret (events_fetched env s w, None) w'.
Proof.
  intros Hne. unfold fetchAllGoogleEvents, events_fetched, fetch_plan.
  destruct (googleCalIDs s) as [|first ?]; [done|].
  unfold mbind, M_bind.
  destruct (fetch_clients_run (googleClients s)
              (GoStrings.Split first ","%char) [] w) as (w' & Hext & ->).
  by exists w'.
Qed.

Lemma fetchAllGoogleEvents_panics s w :
  googleCalIDs s = [] →
  fetchAllGoogleEvents env s w =
  Panic "index out of range [0] with length 0" w.
Proof. intros H. unfold fetchAllGoogleEvents. by rewrite H. Qed.

End Fetch.

(** ** One cycle *)

Section Cycle.

Variable env : Env.

(** [Sync] is: fetch, run the event loop on what was fetched, end the
    cycle.  It returns a nil error whenever the loop returns. *)
Lemma Sync_run s w :
  googleCalIDs s ≠ [] →
  ∃ w0, extends w w0 [] ∧
    match sync_events env s (events_fetched env s w) w0 with
    | Ret s' w1 =>
        ∃ w', Sync env s w = Ret (None, s') w' ∧ cycle_end env s' w1 w'
    | Panic msg w1 => Sync env s w = Panic msg w1
    end.
Proof.
  intros Hne. remember (Sync env s w) as R eqn:HR.
  unfold Sync in HR. unfold mbind at 1 2, M_bind at 1 2 in HR.
  unfold logf at 1 in HR.
  match type of HR with context [fetchAllGoogleEvents env s ?wa] =>
    destruct (fetchAllGoogleEvents_run env s wa Hne) as (wf & Hext & Hf);
    change (events_fetched env s wa) with (events_fetched env s w) in Hf
  end.
  rewrite Hf in HR. unfold mbind at 1 2, M_bind at 1 2 in HR.
  unfold logf at 1 in HR.
  match type of HR with context [sync_events env s _ ?wb] => exists wb end.
  split.
  { eapply extends_nil_trans; [|eapply extends_nil_trans; [exact Hext|]];
      by split. }
  destruct (sync_events env s (events_fetched env s w) _) as [s' w1|msg w1];
    [|done].
  unfold cycle_end. unfold saveState, os_WriteFile in HR.
  destruct (dryRun s'); cbn [negb] in HR.
  { run. eexists. split; [exact HR|]. done. }
  destruct (json_MarshalIndent env (state s')) as [e|data].
  { run. eexists. split; [exact HR|]. done. }
  run. destruct (fs_write env (clock w1) data) as [[errno residue]|];
    eexists; (split; [exact HR|]); done.
Qed.

Lemma Sync_panics s w :
  googleCalIDs s = [] →
  ∃ w0, extends w w0 [] ∧
    Sync env s w = Panic "index out of range [0] with length 0" w0.
Proof.
  intros Hnil. unfold Sync. unfold mbind at 1 2, M_bind at 1 2.
  unfold logf at 1. rewrite fetchAllGoogleEvents_panics by done.
  eexists. split; [|reflexivity]. by split.
Qed.

(** Everything a cycle does to the remote calendar and to the syncer, in
    terms of the create invocations [new] it made. *)
Lemma Sync_outcome s w : ∃ new,
  icloud_calls (world_of (Sync env s w)) = new ++ icloud_calls w ∧
  Forall (call_justified s (events_fetched env s w)) new ∧
  match Sync env s w with
  | Ret (err, s') w' =>
      err = None ∧ googleCalIDs s ≠ [] ∧
      loop_returns s (events_fetched env s w) new s' ∧
      ∃ w1, extends w w1 new ∧ cycle_end env s' w1 w'
  | Panic _ w' =>
      extends w w' new ∧
      (googleCalIDs s = [] ∨ panicked s new)
  end.
Proof.
  destruct (googleCalIDs s) as [|first ids] eqn:Hids.
  { destruct (Sync_panics s w Hids) as (w0 & Hext & ->).
    exists []. split; [by destruct Hext|]. split; [constructor|].
    split; [done|by left]. }
  assert (Hne : googleCalIDs s ≠ []) by by rewrite Hids.
  destruct (Sync_run s w Hne) as (w0 & Hext & HS).
  destruct (sync_events_run env (events_fetched env s w) s w0)
    as (new & Hext' & Hall & Hout).
  exists new. split; [|split; [done|]].
  - destruct (sync_events env s _ w0) as [s' w1|msg w1].
    + destruct HS as (w' & -> & Hc & _). cbn in *. rewrite Hc.
      by destruct (extends_nil_trans _ _ _ _ Hext Hext').
    + rewrite HS. by destruct (extends_nil_trans _ _ _ _ Hext Hext').
  - destruct (sync_events env s _ w0) as [s' w1|msg w1].
    + destruct HS as (w' & -> & Hc). do 3 (split; [done|]).
      exists w1. split; [by eapply extends_nil_trans|done].
    + rewrite HS. split; [by eapply extends_nil_trans|]. by right.
Qed.

End Cycle.

(** ** The example scenarios of the specification *)

(** Events A (source id g1, no UID) and B (source id g2, already a key of
    the state) are fetched: one create invocation is made, for A with a
    generated UID; the state gains exactly the entry for g1 and is
    written to the file. *)
Example scenario_new_and_known :
  let env := Scenario.env_with [Scenario.A; Scenario.B] (fun _ => None) in
  let s := Scenario.syncer_with (alloc {[ "g2" := "uid-b" ]}) false in
  let r := Sync env s (Scenario.world_with GoOS.Absent) in
  let uid := "2a35404b-5661-4c77-828d-98a3aeb9c4cf" in
  let st' := alloc (<["g1" := uid]> {[ "g2" := "uid-b" ]}) in
  (ID ∘ created <$> icloud_calls (world_of r)) = ["g1"] ∧
  (UID ∘ created <$> icloud_calls (world_of r)) = [uid] ∧
  (outcome <$> icloud_calls (world_of r)) = [None] ∧
  match r with
  | Ret (None, s') w' =>
      state s' = st' ∧
      Some (file w') =
      match json_MarshalIndent env st' with
      | inr data => Some (GoOS.Present data)
      | inl _ => None
      end
  | _ => False
  end.
Proof. vm_compute. repeat split. Qed.

(** The create of event C (source id g3) fails: the cycle completes with a
    nil error, g3 is not in the saved state, and the next cycle attempts C
    again. *)
Example scenario_create_fails :
  let env :=
    Scenario.env_with [Scenario.C] (fun _ => Some (CalDAVError "503")) in
  let s := Scenario.syncer_with (alloc ∅) false in
  let r := Sync env s (Scenario.world_with GoOS.Absent) in
  match r with
  | Ret (None, s') w' =>
      state s' = alloc ∅ ∧ file w' = GoOS.Present "{}" ∧
      (ID ∘ created <$> icloud_calls w') = ["g3"] ∧
      (ID ∘ created <$> icloud_calls (world_of (Sync env s' w'))) =
      ["g3"; "g3"]
  | _ => False
  end.
Proof. vm_compute. repeat split. Qed.

(** A state file that holds the JSON literal [null] decodes, without an
    error, to a nil map: [NewSyncer] succeeds, and the first cycle whose
    create succeeds panics on the assignment to the map, after the event
    has been created remotely and before anything is saved. *)
Example scenario_null_state_file :
  let env := Scenario.env_with [Scenario.B] (fun _ => None) in
  let w := Scenario.world_with (GoOS.Present "null") in
  match NewSyncer env [Scenario.personal] ["primary"] Scenario.home false
          Scenario.lisbon w with
  | Ret (Some s, None) w0 =>
      state s = nil_map ∧
      match Sync env s w0 with
      | Panic msg w' =>
          msg = "assignment to entry in nil map" ∧
          (outcome <$> icloud_calls w') = [None] ∧
          file w' = GoOS.Present "null"
      | Ret _ _ => False
      end
  | _ => False
  end.
Proof. vm_compute. repeat split. Qed.

(** ** Properties of the synchronisation *)





(** C4 (UID generation).  When [syncEvent] handles an event that is not in
    the state store, the event carries a non-empty UID from then on: the
    string of the UUID that [GenerateUID] draws at that moment if the
    fetched event had none, and its own UID otherwise.  Every create
    invocation the call makes, and the event it leaves behind, carry that
    UID. *)
Theorem uid_before_write (env : Env) (s : Syncer) (e : Event) (w : World) :
  map_index (state s) (ID e) = None →
  ∃ uid new,
    uid ≠ EmptyString ∧
    (UID e = EmptyString →
       ∀ w0, clock w0 = clock w → ∃ w0', GenerateUID env w0 = Ret uid w0') ∧
    (UID e ≠ EmptyString → uid = UID e) ∧
    extends w (world_of (syncEvent env s e w)) new ∧
    (∀ c, c ∈ new → ID (created c) = ID e ∧ UID (created c) = uid) ∧
    (∀ err s' e' w', syncEvent env s e w = Ret (err, s', e') w' →
       UID e' = uid) ∧
    (dryRun s = false → ∃ c, new = [c]).
Proof.
  intros Hidx.
  exists (UID (normalized env s e w)).
  assert (Hgen : UID e = EmptyString →
    ∀ w0, clock w0 = clock w →
    ∃ w0', GenerateUID env w0 = Ret (UID (normalized env s e w)) w0').
  { intros Hu w0 Hck. unfold GenerateUID, normalized. run. cbn.
    rewrite decide_True by done. rewrite Hck. by eexists. }
  assert (Hkeep : UID e ≠ EmptyString → UID (normalized env s e w) = UID e).
  { intros Hu. unfold normalized. cbn. by rewrite decide_False. }
  pose proof (normalized_UID_nonempty env s e w) as Hne.
  pose proof (syncEvent_cases env s e w) as Hc.
  remember (syncEvent env s e w) as r eqn:Hr.
  destruct Hc as [v w1 Hidx' Hext|w1 _ Hdry Hext|x w1 _ Hdry Hext
                 |m w1 Hst _ Hdry Hext|w1 Hst Hdry Hext];
    [congruence|..]; eexists; (do 3 (split; [done|])); (split; [exact Hext|]);
    (split; [|split]);
    try (intros c ->%list_elem_of_singleton; done);
    try (intros c Hc; by apply elem_of_nil in Hc);
    try (by intros ???? [= <- <- <- <-]);
    try done; try congruence; try (intros _; by eexists).
Qed.

Lemma uid_before_write_witness :
  let s := Scenario.syncer_with (alloc {[ "g2" := "uid-b" ]}) false in
  let w := Scenario.world_with GoOS.Absent in
  let env := Scenario.env_with [Scenario.A; Scenario.B] (fun _ => None) in
  map_index (state s) (ID Scenario.A) = None ∧
  ∃ uid c, uid ≠ EmptyString ∧
    icloud_calls (world_of (syncEvent env s Scenario.A w)) = [c] ∧
    UID (created c) = uid.
Proof.
  intros s w env.
  assert (H : map_index (state s) (ID Scenario.A) = None) by reflexivity.
  split; [exact H|].
  destruct (uid_before_write env s Scenario.A w H)
    as (uid & new & Hne & _ & _ & [_ Hcalls] & Hall & _ & Hone).
  destruct (Hone eq_refl) as [c ->].
  exists uid, c. split; [exact Hne|]. split; [exact Hcalls|].
  apply Hall. by left.
Defined.



(** C10 (time zone normalisation).  Whatever [syncEvent] does with an
    event, the event it returns and the event it hands to the destination
    show the same two instants as the fetched event and agree with it on
    every field other than the UID; for an event that is not skipped, both
    times are presented in the primary time zone. *)
Theorem timezone_preserves_instants (env : Env) (s : Syncer) (e : Event)
    (w : World) :
  ∃ new,
    extends w (world_of (syncEvent env s e w)) new ∧
    ∀ e',
      (∃ err s' w', syncEvent env s e w = Ret (err, s', e') w') ∨
      (∃ c, c ∈ new ∧ created c = e') →
      same_up_to_uid_and_zone e e' ∧
      (map_index (state s) (ID e) = None →
         GoTime.loc (StartTime e') = primaryTimeZone s ∧
         GoTime.loc (EndTime e') = primaryTimeZone s).
Proof.
  assert (Heq : ∀ t l, GoTime.Equal (GoTime.In t l) t = true).
  { intros t l. unfold GoTime.Equal, GoTime.In. cbn.
    by rewrite !Z.eqb_refl. }
  assert (Hself : ∀ t, GoTime.Equal t t = true).
  { intros t. unfold GoTime.Equal. by rewrite !Z.eqb_refl. }
  assert (Hnorm : same_up_to_uid_and_zone e (normalized env s e w) ∧
    GoTime.loc (StartTime (normalized env s e w)) = primaryTimeZone s ∧
    GoTime.loc (EndTime (normalized env s e w)) = primaryTimeZone s).
  { unfold same_up_to_uid_and_zone, normalized. cbn. by rewrite !Heq. }
  pose proof (syncEvent_cases env s e w) as Hc.
  remember (syncEvent env s e w) as r eqn:Hr.
  destruct Hc as [v w1 Hidx Hext|w1 _ _ Hext|x w1 _ _ Hext
                 |m w1 _ _ _ Hext|w1 _ _ Hext];
    eexists; (split; [exact Hext|]); intros e' [(err & s' & w' & He)|(c & Hc & <-)];
    try (by apply elem_of_nil in Hc);
    try (apply list_elem_of_singleton in Hc as ->);
    try (injection He as <- <- <- <-);
    try discriminate;
    try (split; [apply Hnorm|intros _; apply Hnorm]).
  split; [|congruence].
  unfold same_up_to_uid_and_zone. by rewrite !Hself.
Qed.

Lemma timezone_preserves_instants_witness :
  let s := Scenario.syncer_with (alloc ∅) true in
  let w := Scenario.world_with GoOS.Absent in
  let env := Scenario.env_with [Scenario.A] (fun _ => None) in
  ∃ e', (∃ err s' w', syncEvent env s Scenario.A w = Ret (err, s', e') w') ∧
    map_index (state s) (ID Scenario.A) = None ∧
    GoTime.Equal (StartTime e') (StartTime Scenario.A) = true ∧
    GoTime.loc (StartTime e') = Scenario.lisbon.
Proof.
  intros s w env.
  destruct (timezone_preserves_instants env s Scenario.A w) as (new & _ & H).
  destruct (syncEvent env s Scenario.A w) as [[[err s'] e'] w'|msg w'] eqn:HS;
    [|vm_compute in HS; discriminate].
  assert (Hret : ∃ err0 s0 w0, Ret (err, s', e') w' = Ret (err0, s0, e') w0)
    by (by eexists _, _, _).
  exists e'. split; [exact Hret|]. split; [reflexivity|].
  destruct (H e' (or_introl Hret)) as [(Hs & _) Hz].
  split; [exact Hs|]. by destruct Hz.
Defined.

(** C6 (loading the state).  [NewSyncer] starts from an empty, allocated
    map when the state file does not exist, and from the decoded map when
    the file decodes; it returns an error exactly when [loadState] fails
    with an error that is not a does-not-exist error, which is the case
    for a file that cannot be read and for content that does not
    decode. *)
Theorem NewSyncer_load_failures (env : Env) (gClients : list CalendarClient)
    (gCalIDs : list string) (iClient : CalDAVClient) (dry : bool)
    (tz : GoTime.Location) (w : World) :
  let build st :=
    {| googleClients := gClients; googleCalIDs := gCalIDs;
       icloudClient := iClient; state := st; dryRun := dry;
       primaryTimeZone := tz |} in
  let new_syncer := NewSyncer env gClients gCalIDs iClient dry tz w in
  (file w = GoOS.Absent ∨ file w = GoOS.Unreadable ENOENT →
     ∃ w', new_syncer = Ret (Some (build (alloc ∅)), None) w' ∧
           extends w w' []) ∧
  (∀ data st, file w = GoOS.Present data →
     json_Unmarshal env data = inr st →
     new_syncer = Ret (Some (build st), None) w) ∧
  (∀ errno, file w = GoOS.Unreadable errno → errno ≠ ENOENT →
     new_syncer =
     Ret (None, Some (Errorf "failed to load sync state"
                        (PathError "read" stateFile errno))) w) ∧
  (∀ data detail, file w = GoOS.Present data →
     json_Unmarshal env data = inl detail →
     new_syncer =
     Ret (None, Some (Errorf "failed to load sync state"
                        (JSONError detail))) w) ∧
  ((∃ e w', new_syncer = Ret (None, Some e) w') ↔
   (∃ st e w1, loadState env w = Ret (st, Some e) w1 ∧
               GoOS.IsNotExist e = false)).
Proof.
  intros build new_syncer. subst build new_syncer. cbv beta.
  unfold NewSyncer, loadState, os_ReadFile. run.
  destruct (file w) as [|errno|data] eqn:Hf; cbn.
  - split; [intros _; by eexists|].
    split; [by intros|]. split; [by intros|]. split; [by intros|].
    split; [by intros (? & ? & [=])|by intros (? & ? & ? & [= <- <- <-] & [=])].
  - destruct (decide (errno = ENOENT)) as [->|Hne]; cbn.
    + split; [intros _; by eexists|].
      split; [by intros|]. split; [by intros ? [= <-] ?|]. split; [by intros|].
      split; [by intros (? & ? & [=])|by intros (? & ? & ? & [= <- <- <-] & [=])].
    + assert (GoOS.IsNotExist (PathError "read" stateFile errno) = false)
        as Hno by by destruct errno.
      unfold GoOS.IsNotExist in Hno. rewrite Hno.
      split; [intros [?|[= ?]]; done|].
      split; [by intros|]. split; [by intros ? [= <-] ?|]. split; [by intros|].
      split; [intros _; eexists _, _, _; split; [reflexivity|done]
             |intros _; eexists _, _; reflexivity].
  - split; [intros [?|?]; done|].
    destruct (json_Unmarshal env data) as [detail|st] eqn:Hj; cbn.
    + split; [intros ?? [= <-] ?; congruence|]. split; [by intros|].
      split; [intros ?? [= <-] ?; congruence|].
      split; [intros _; eexists _, _, _; split; [reflexivity|done]
             |intros _; eexists _, _; reflexivity].
    + split; [intros ?? [= <-] ?; congruence|]. split; [by intros|].
      split; [intros ?? [= <-] ?; congruence|].
      split; [by intros (? & ? & [=])|by intros (? & ? & ? & [=] & _)].
Qed.

Lemma NewSyncer_load_failures_witness :
  let env := Scenario.env_with [] (fun _ => None) in
  let new_syncer f :=
    NewSyncer env [Scenario.personal] ["primary"] Scenario.home false
      Scenario.lisbon (Scenario.world_with f) in
  (∃ s w', new_syncer GoOS.Absent = Ret (Some s, None) w' ∧
           state s = alloc ∅) ∧
  (∃ e, new_syncer (GoOS.Unreadable EACCES) =
        Ret (None, Some e) (Scenario.world_with (GoOS.Unreadable EACCES))) ∧
  (∃ e, new_syncer (GoOS.Present "[1, 2]") =
        Ret (None, Some e) (Scenario.world_with (GoOS.Present "[1, 2]"))).
Proof.
  intros env new_syncer.
  pose proof (λ f, NewSyncer_load_failures env [Scenario.personal] ["primary"]
    Scenario.home false Scenario.lisbon (Scenario.world_with f)) as H.
  cbv zeta in H. split; [|split].
  - destruct (H GoOS.Absent) as (Hfresh & _).
    destruct (Hfresh (or_introl eq_refl)) as (w' & Hs & _).
    eexists _, w'. split; [exact Hs|reflexivity].
  - destruct (H (GoOS.Unreadable EACCES)) as (_ & _ & Hio & _).
    eexists. apply (Hio EACCES eq_refl). discriminate.
  - destruct (H (GoOS.Present "[1, 2]")) as (_ & _ & _ & Hjson & _).
    eexists. eapply Hjson; reflexivity.
Defined.









Lemma calls_since_extends w w1 new :
  icloud_calls w1 = new ++ icloud_calls w → calls_since w w1 = new.
Proof.
  intros H. unfold calls_since. rewrite H, length_app.
  replace (length new + length (icloud_calls w) - length (icloud_calls w))
    with (length new) by lia.
  by rewrite take_app_length.
Qed.





(** * Further properties *)

(** ** More about the event loop *)

Section EventLoopTrace.

Variable env : Env.

Lemma filter_sublist_mono {A} (P Q : A → Prop) `{∀ x, Decision (P x)}
    `{∀ x, Decision (Q x)} (l : list A) :
  (∀ x, P x → Q x) → sublist (filter P l) (filter Q l).
Proof.
  intros HPQ. induction l as [|x l IH]; [constructor|].
  rewrite !filter_cons. destruct (decide (P x)) as [HP|HP].
  - rewrite decide_True by auto. by constructor.
  - destruct (decide (Q x)); [by constructor|done].
Qed.

Lemma app_cons_snoc_inv {A} (l newer older : list A) (x c : A) :
  l ++ [x] = newer ++ c :: older →
  (older = [] ∧ l = newer ∧ x = c) ∨
  (∃ older', older = older' ++ [x] ∧ l = newer ++ c :: older').
Proof.
  destruct older as [|y older _] using rev_ind; intros Heq.
  - left. apply app_inj_tail in Heq as [-> ->]. done.
  - right. exists older.
    change (newer ++ c :: older ++ [y]) with (newer ++ (c :: older) ++ [y])
      in Heq.
    rewrite app_assoc in Heq. apply app_inj_tail in Heq as [-> ->]. done.
Qed.

(** The create invocations [new] of a run of the loop (newest first):
    they follow the order of the events that were not in the state; once
    one has succeeded for an identifier, no later one is made for it; and
    when the loop returns, the state maps the identifier of every
    successful one to the UID that was sent. *)
Lemma sync_events_trace evs : ∀ s w new,
  extends w (world_of (sync_events env s evs w)) new →
  sublist (ID ∘ created <$> reverse new)
    (ID <$> filter (λ e, map_index (state s) (ID e) = None) evs) ∧
  (∀ newer c older, new = newer ++ c :: older → outcome c = None →
     ∀ c', c' ∈ newer → ID (created c') ≠ ID (created c)) ∧
  (∀ s' w', sync_events env s evs w = Ret s' w' →
     ∀ c, c ∈ new → outcome c = None →
     map_index (state s') (ID (created c)) = Some (UID (created c))).
Proof.
  induction evs as [|e rest IH]; intros s w new Hnew.
  { cbn in Hnew. pose proof (extends_inj _ _ _ _ Hnew (extends_refl w)) as ->.
    split; [constructor|]. split.
    - intros newer c older Heq. by destruct newer.
    - intros s' w' _ c Hc. by apply elem_of_nil in Hc. }
  rewrite filter_cons. rewrite sync_events_cons in Hnew |- *.
  pose proof (syncEvent_cases env s e w) as Hc.
  remember (syncEvent env s e w) as r eqn:Hr.
  destruct Hc as [v w1 Hidx Hext|w1 Hidx Hdry Hext|x w1 Hidx Hdry Hext
                 |m w1 Hst Hidx Hdry Hext|w1 Hst Hdry Hext].
  - (* skipped *)
    rewrite decide_False by congruence.
    destruct (sync_events_run env rest s (after_event None w1))
      as (new' & Hext' & _ & _).
    pose proof (extends_inj _ _ _ _ Hnew (extends_nil_trans _ _ _ _ Hext Hext'))
      as ->.
    exact (IH s _ new' Hext').
  - (* dry run *)
    rewrite decide_True by done.
    destruct (sync_events_run env rest s (after_event None w1))
      as (new' & Hext' & Hall & _).
    pose proof (extends_inj _ _ _ _ Hnew (extends_nil_trans _ _ _ _ Hext Hext'))
      as ->.
    assert (new' = []) as ->.
    { destruct new' as [|c l]; [done|].
      apply Forall_cons in Hall as [(? & _) _]. congruence. }
    split; [apply sublist_nil_l|]. split.
    + intros newer c older Heq. by destruct newer.
    + intros s' w' _ c Hc. by apply elem_of_nil in Hc.
  - (* create failed *)
    rewrite decide_True by done.
    set (err := Some (Errorf "failed to sync event to icloud" x)) in *.
    set (c0 := call (normalized env s e w) (Some x)) in *.
    destruct (sync_events_run env rest s (after_event err w1))
      as (new' & Hext' & _ & _).
    assert (Htot : extends w (world_of (sync_events env s rest
                     (after_event err w1))) (new' ++ [c0])).
    { eapply extends_trans; [exact Hext|].
      eapply extends_nil_trans; [apply after_event_extends|exact Hext']. }
    pose proof (extends_inj _ _ _ _ Hnew Htot) as ->.
    destruct (IH s _ new' Hext') as (Hsub & Honce & Hfin).
    split; [|split].
    + rewrite reverse_app, reverse_singleton. cbn. by constructor.
    + intros newer c older Heq Hok c' Hc'.
      apply app_cons_snoc_inv in Heq as [(_ & _ & <-)|(older' & -> & ->)];
        [done|].
      by eapply Honce.
    + intros s' w' Hret c [Hc|Hc]%elem_of_app Hok.
      * by eapply Hfin.
      * apply list_elem_of_singleton in Hc as ->. done.
  - (* created *)
    rewrite decide_True by by rewrite Hst.
    set (n := normalized env s e w) in *.
    set (s1 := set_state s (alloc (<[ID e := UID n]> m))) in *.
    set (c0 := call n None) in *.
    destruct (sync_events_run env rest s1 (after_event None w1))
      as (new' & Hext' & Hall & Hout).
    assert (Htot : extends w (world_of (sync_events env s1 rest
                     (after_event None w1))) (new' ++ [c0])).
    { eapply extends_trans; [exact Hext|exact Hext']. }
    pose proof (extends_inj _ _ _ _ Hnew Htot) as ->.
    destruct (IH s1 _ new' Hext') as (Hsub & Honce & Hfin).
    assert (Hother : ∀ c', c' ∈ new' → ID (created c') ≠ ID e).
    { intros c' Hc' Heq.
      apply (proj1 (Forall_forall _ _) Hall) in Hc' as (_ & Hn & _).
      cbn in Hn. rewrite Heq, lookup_insert_eq in Hn. done. }
    split; [|split].
    + rewrite reverse_app, reverse_singleton. cbn. constructor.
      etrans; [exact Hsub|]. apply fmap_sublist, filter_sublist_mono.
      intros e0. cbn. rewrite Hst. cbn. intros Hn.
      apply lookup_insert_None in Hn. tauto.
    + intros newer c older Heq Hok c' Hc'.
      apply app_cons_snoc_inv in Heq as [(_ & -> & <-)|(older' & -> & ->)].
      * by apply Hother.
      * by eapply Honce.
    + intros s' w' Hret c [Hc|Hc]%elem_of_app Hok.
      * by eapply Hfin.
      * apply list_elem_of_singleton in Hc as ->.
        rewrite Hret in Hout. apply (lr_kept _ _ _ _ Hout). cbn.
        by rewrite lookup_insert_eq.
  - (* nil map *)
    rewrite decide_True by by rewrite Hst.
    set (c0 := call (normalized env s e w) None) in *.
    pose proof (extends_inj _ _ _ _ Hnew Hext) as ->.
    split; [|split].
    + cbn. constructor. apply sublist_nil_l.
    + intros newer c older Heq Hok c' Hc'.
      destruct newer as [|? [|]]; [by apply elem_of_nil in Hc'|done..].
    + done.
Qed.

End EventLoopTrace.

(** ** More about one cycle *)

Section CycleTrace.

Variable env : Env.

(** The create invocations of a cycle are those of its event loop. *)
Lemma Sync_loop_calls s w :
  googleCalIDs s ≠ [] →
  ∃ w0,
    extends w w0 [] ∧
    extends w0 (world_of (sync_events env s (events_fetched env s w) w0))
      (calls_since w (world_of (Sync env s w))) ∧
    match sync_events env s (events_fetched env s w) w0 with
    | Ret s' w1 =>
        ∃ w', Sync env s w = Ret (None, s') w' ∧ cycle_end env s' w1 w'
    | Panic msg w1 => Sync env s w = Panic msg w1
    end.
Proof.
  intros Hne. destruct (Sync_run env s w Hne) as (w0 & Hext & HS).
  exists w0. split; [done|]. split; [|done].
  destruct (sync_events_run env (events_fetched env s w) s w0)
    as (new & Hext' & _ & _).
  pose proof (extends_nil_trans _ _ _ _ Hext Hext') as [_ Hcalls].
  destruct (sync_events env s (events_fetched env s w) w0) as [s' w1|msg w1].
  - destruct HS as (w' & -> & Hc & _). cbn [world_of] in *.
    rewrite <- Hc in Hcalls. by rewrite (calls_since_extends _ _ _ Hcalls).
  - rewrite HS. cbn [world_of] in *.
    by rewrite (calls_since_extends _ _ _ Hcalls).
Qed.

Lemma Sync_no_calls_without_ids s w :
  googleCalIDs s = [] → calls_since w (world_of (Sync env s w)) = [].
Proof.
  intros Hnil. destruct (Sync_panics env s w Hnil) as (w0 & [_ Hc] & ->).
  by apply calls_since_extends.
Qed.

End CycleTrace.

(** X1 (at most one successful create per source event).  Within one
    cycle, once a create invocation has succeeded for a source identifier,
    no later invocation is made for that identifier. *)
Theorem create_at_most_once (env : Env) (s : Syncer) (w : World)
    (newer older : list CreateCall) (c : CreateCall) :
  calls_since w (world_of (Sync env s w)) = newer ++ c :: older →
  outcome c = None →
  ∀ c', c' ∈ newer → ID (created c') ≠ ID (created c).
Proof.
  intros Hcalls Hok.
  destruct (googleCalIDs s) as [|first ids] eqn:Hids.
  { rewrite (Sync_no_calls_without_ids env s w Hids) in Hcalls.
    by destruct newer. }
  assert (Hne : googleCalIDs s ≠ []) by by rewrite Hids.
  destruct (Sync_loop_calls env s w Hne) as (w0 & _ & Hext & _).
  destruct (sync_events_trace env _ _ _ _ Hext) as (_ & Honce & _).
  by eapply Honce.
Qed.

Lemma create_at_most_once_witness :
  let env :=
    Scenario.env_with [Scenario.A; Scenario.B; Scenario.A] (fun _ => None) in
  let s := Scenario.syncer_with (alloc ∅) false in
  let w := Scenario.world_with GoOS.Absent in
  let at1 := {| clock := 1; file := GoOS.Absent; icloud_calls := [];
                log := [] |} in
  let cA := call (normalized env s Scenario.A at1) None in
  let cB := call (normalized env s Scenario.B at1) None in
  (calls_since w (world_of (Sync env s w)) = [cB] ++ cA :: [] ∧
   outcome cA = None) ∧
  ID (created cB) ≠ ID (created cA).
Proof.
  intros env s w at1 cA cB.
  assert (H1 : calls_since w (world_of (Sync env s w)) = [cB] ++ cA :: [])
    by (vm_compute; reflexivity).
  assert (H2 : outcome cA = None) by reflexivity.
  split; [by split|].
  apply (create_at_most_once env s w [cB] [] cA H1 H2 cB). by left.
Defined.

(** X2 (the state after a cycle).  When a cycle returns, the state holds
    exactly the entries it held before, unchanged, and one entry for every
    create invocation that succeeded, mapping the source identifier to the
    UID that was sent. *)
Theorem state_after_cycle (env : Env) (s s' : Syncer) (w w' : World)
    (err : option error) :
  Sync env s w = Ret (err, s') w' →
  same_config s s' ∧
  ∀ k v,
    map_index (state s') k = Some v ↔
    map_index (state s) k = Some v ∨
    ∃ c, c ∈ calls_since w w' ∧ outcome c = None ∧
         ID (created c) = k ∧ UID (created c) = v.
Proof.
  intros HS.
  destruct (Sync_outcome env s w) as (new & Hcalls & _ & Hout).
  rewrite HS in Hcalls, Hout. cbn [world_of] in Hcalls.
  destruct Hout as (_ & Hne & Hl & _).
  rewrite (calls_since_extends _ _ _ Hcalls).
  split; [apply (lr_config _ _ _ _ Hl)|].
  intros k v. split.
  - apply (lr_origin _ _ _ _ Hl).
  - intros [Hold|(c & Hc & Hok & <- & <-)].
    + by apply (lr_kept _ _ _ _ Hl).
    + destruct (Sync_loop_calls env s w Hne) as (w0 & _ & Hext & Hloop).
      rewrite HS in Hext. cbn [world_of] in Hext.
      rewrite (calls_since_extends _ _ _ Hcalls) in Hext.
      destruct (sync_events_trace env _ _ _ _ Hext) as (_ & _ & Hfin).
      destruct (sync_events env s (events_fetched env s w) w0)
        as [s1 w1|msg w1] eqn:Hrun.
      * destruct Hloop as (w2 & HS2 & _). rewrite HS in HS2.
        injection HS2 as _ <- _. by eapply Hfin.
      * congruence.
Qed.

Lemma state_after_cycle_witness :
  let env := Scenario.env_with [Scenario.A; Scenario.B] (fun _ => None) in
  let s := Scenario.syncer_with (alloc {[ "g2" := "uid-b" ]}) false in
  let w := Scenario.world_with GoOS.Absent in
  let s' :=
    Scenario.syncer_with
      (alloc (<["g1" := "2a35404b-5661-4c77-828d-98a3aeb9c4cf"]>
                {[ "g2" := "uid-b" ]})) false in
  let w' := world_of (Sync env s w) in
  Sync env s w = Ret (None, s') w' ∧
  (map_index (state s') "g2" = Some "uid-b" ↔
   map_index (state s) "g2" = Some "uid-b" ∨
   ∃ c, c ∈ calls_since w w' ∧ outcome c = None ∧
        ID (created c) = "g2" ∧ UID (created c) = "uid-b").
Proof.
  intros env s w s' w'.
  assert (H : Sync env s w = Ret (None, s') w') by (vm_compute; reflexivity).
  split; [exact H|].
  destruct (state_after_cycle env s s' w w' None H) as [_ Hst].
  exact (Hst "g2" "uid-b").
Defined.

(** X3 (creates follow the fetch order).  The source identifiers of the
    create invocations of a cycle, in the order in which they were made,
    are a subsequence of the identifiers of the fetched events that were
    not in the state when the cycle began; in particular a cycle makes at
    most one create invocation per such event. *)
Theorem creates_follow_fetch_order (env : Env) (s : Syncer) (w : World) :
  let made := reverse (calls_since w (world_of (Sync env s w))) in
  let fresh :=
    filter (λ e, map_index (state s) (ID e) = None)
      (events_fetched env s w) in
  sublist (ID ∘ created <$> made) (ID <$> fresh) ∧
  (length made ≤ length fresh)%nat.
Proof.
  intros made fresh.
  assert (Hsub : sublist (ID ∘ created <$> made) (ID <$> fresh)).
  { subst made fresh.
    destruct (googleCalIDs s) as [|first ids] eqn:Hids.
    { rewrite (Sync_no_calls_without_ids env s w Hids). apply sublist_nil_l. }
    assert (Hne : googleCalIDs s ≠ []) by by rewrite Hids.
    destruct (Sync_loop_calls env s w Hne) as (w0 & _ & Hext & _).
    by destruct (sync_events_trace env _ _ _ _ Hext) as (Hsub & _). }
  split; [exact Hsub|].
  apply sublist_length in Hsub. by rewrite !length_fmap in Hsub.
Qed.




(** ** Byte strings *)

Lemma string_app_cons c (a b : string) :
  String c a +:+ b = String c (a +:+ b).
Proof. reflexivity. Qed.

Lemma string_drop_app (a b : string) :
  string_drop (String.length a) (a +:+ b) = b.
Proof. induction a as [|c a IH]; [by destruct b|exact IH]. Qed.

Lemma string_take_app (a b : string) :
  string_take (String.length a) (a +:+ b) = a.
Proof.
  induction a as [|c a IH]; [by destruct b|].
  rewrite string_app_cons. cbn [String.length string_take]. by rewrite IH.
Qed.

Lemma string_take_drop n (s : string) :
  string_take n s +:+ string_drop n s = s.
Proof.
  revert s. induction n as [|n IH]; intros [|c s]; try done.
  cbn [string_take string_drop]. by rewrite string_app_cons, IH.
Qed.

Lemma string_take_length n (s : string) :
  (n ≤ String.length s)%nat → String.length (string_take n s) = n.
Proof.
  revert s. induction n as [|n IH]; intros [|c s]; simpl; try done; try lia.
  intros Hn. rewrite IH; lia.
Qed.

Lemma strings_HasPrefix_app (p r : string) :
  strings_HasPrefix (p +:+ r) p = true.
Proof.
  induction p as [|c p IH]; [by destruct r|].
  rewrite string_app_cons. cbn [strings_HasPrefix]. by rewrite decide_True.
Qed.

Lemma strings_HasPrefix_inv (s p : string) :
  strings_HasPrefix s p = true → s = p +:+ string_drop (String.length p) s.
Proof.
  revert s. induction p as [|c p IH]; intros s; [by destruct s|].
  destruct s as [|d s]; cbn [strings_HasPrefix String.length string_drop];
    [done|].
  destruct (decide (d = c)) as [->|]; [|done].
  intros H. by rewrite string_app_cons, <- (IH s H).
Qed.

Lemma strings_HasSuffix_app (a suf : string) :
  strings_HasSuffix (a +:+ suf) suf = true.
Proof.
  unfold strings_HasSuffix. rewrite string_app_length.
  rewrite bool_decide_true by lia.
  replace (String.length a + String.length suf - String.length suf)
    with (String.length a) by lia.
  by rewrite string_drop_app, bool_decide_true.
Qed.

Lemma strings_HasSuffix_inv (s suf : string) :
  strings_HasSuffix s suf = true →
  s = string_take (String.length s - String.length suf) s +:+ suf.
Proof.
  unfold strings_HasSuffix.
  intros [_ Hd%bool_decide_eq_true]%andb_prop.
  pose proof (string_take_drop (String.length s - String.length suf) s) as H.
  by rewrite Hd in H.
Qed.

Lemma strings_TrimSuffix_app (a suf : string) :
  strings_TrimSuffix (a +:+ suf) suf = a.
Proof.
  unfold strings_TrimSuffix. rewrite strings_HasSuffix_app, string_app_length.
  replace (String.length a + String.length suf - String.length suf)
    with (String.length a) by lia.
  apply string_take_app.
Qed.

Lemma strings_TrimPrefix_app (p r : string) :
  strings_TrimPrefix (p +:+ r) p = r.
Proof.
  unfold strings_TrimPrefix. by rewrite strings_HasPrefix_app, string_drop_app.
Qed.

Lemma string_app_assoc (a b c : string) : (a +:+ b) +:+ c = a +:+ b +:+ c.
Proof.
  induction a as [|x a IH]; [done|]. by rewrite !string_app_cons, IH.
Qed.

Lemma string_drop_drop a b (s : string) :
  string_drop a (string_drop b s) = string_drop (b + a) s.
Proof.
  revert s. induction b as [|b IH]; intros s; [done|].
  destruct s as [|c s]; [by destruct a|]. exact (IH s).
Qed.

Lemma string_drop_length n (s : string) :
  String.length (string_drop n s) = String.length s - n.
Proof.
  revert s. induction n as [|n IH]; intros [|c s]; cbn; try done; try lia.
Qed.

(** ** Token files *)

(** The account a directory entry stands for, if it is a token file. *)
Lemma token_entry_account (name acc : string) :
  (strings_HasPrefix name "token-" && strings_HasSuffix name ".json" = true ∧
   strings_TrimSuffix (strings_TrimPrefix name "token-") ".json" = acc) ↔
  name = tokenFile acc.
Proof.
  unfold tokenFile. split.
  - intros [[Hp Hs]%andb_prop <-].
    pose proof (strings_HasPrefix_inv _ _ Hp) as Hname.
    unfold strings_TrimPrefix. rewrite Hp.
    set (r := string_drop (String.length "token-") name) in *.
    assert (Hr : strings_HasSuffix r ".json" = true).
    { pose proof Hs as [Hlen%bool_decide_eq_true Hd%bool_decide_eq_true]%andb_prop.
      unfold strings_HasSuffix. apply andb_true_intro.
      assert (Hl : String.length name = 6 + String.length r).
      { rewrite Hname at 1. by rewrite string_app_length. }
      destruct (decide (5 ≤ String.length r)%nat) as [Hge|Hlt].
      - split; [by apply bool_decide_eq_true|]. apply bool_decide_eq_true.
        change (String.length ".json") with 5 in *.
        change (String.length "token-") with 6 in *.
        transitivity (string_drop (String.length name - 5) name); [|exact Hd].
        subst r. rewrite string_drop_drop. f_equal.
        rewrite string_drop_length in Hge |- *. lia.
      - exfalso. rewrite Hname in Hd. clearbody r. clear -Hd Hlt.
        destruct r as [|a [|b [|c [|d [|e r]]]]]; cbn in *;
          try discriminate; lia. }
    unfold strings_TrimSuffix. rewrite Hr.
    rewrite Hname at 1. f_equal. by apply strings_HasSuffix_inv.
  - intros ->. split.
    + apply andb_true_intro. split; [apply strings_HasPrefix_app|].
      rewrite <- string_app_assoc. apply strings_HasSuffix_app.
    + by rewrite strings_TrimPrefix_app, strings_TrimSuffix_app.
Qed.

(** X5 (token files and accounts).  [GetTokenAccounts] lists an account
    exactly when the directory holds the token file of that account, the
    file the [auth] command writes and [NewClient] reads; a failure to
    read the directory is returned as it is. *)
Theorem token_accounts_round_trip (files : list string) (acc : string)
    (err : error) :
  (acc ∈ (GetTokenAccounts (inr files)).1 ↔ tokenFile acc ∈ files) ∧
  (GetTokenAccounts (inr files)).2 = None ∧
  GetTokenAccounts (inl err) = ([], Some err).
Proof.
  split; [|done]. cbn.
  set (f := λ (accounts : list string) (name : string), _).
  assert (Hfold : ∀ l accounts a,
    a ∈ foldl f accounts l ↔ a ∈ accounts ∨ tokenFile a ∈ l).
  { induction l as [|name l IH]; intros accounts a; cbn.
    - rewrite elem_of_nil. tauto.
    - rewrite IH, elem_of_cons. unfold f at 1.
      pose proof (token_entry_account name a) as Hn.
      destruct (strings_HasPrefix name "token-" &&
                strings_HasSuffix name ".json") eqn:Hc.
      + rewrite elem_of_app, list_elem_of_singleton.
        assert (a = strings_TrimSuffix (strings_TrimPrefix name "token-")
                      ".json" ↔ tokenFile a = name) as ->; [|tauto].
        split; [intros Ha; symmetry; apply Hn; by split|].
        intros Ha. symmetry in Ha. apply Hn in Ha as [_ Ha]. done.
      + assert (tokenFile a ≠ name); [|tauto].
        intros Ha. symmetry in Ha. apply Hn in Ha as [? _]. done. }
  rewrite Hfold, elem_of_nil. tauto.
Qed.

(** ** Converting the events of the API *)

Section ConversionFacts.

Variable time_Parse_RFC3339 : string → option GoTime.Time.


Lemma toInternalEvents_skip item rest source :
  ¬ is_timed item →
  toInternalEvents time_Parse_RFC3339 (item :: rest) source =
  toInternalEvents time_Parse_RFC3339 rest source.
Proof.
  intros Hnt. cbn. destruct (GCal.Start item) as [start|] eqn:Hs; [|done].
  destruct (decide (GCal.DateTime start = EmptyString)); [done|].
  destruct Hnt. by exists start.
Qed.


(** X7 (what the conversion keeps).  When [toInternalEvents] returns, its
    result has one event per item with a start time, in the same order:
    all-day items are dropped.  Each event takes its ID, UID and title from
    its item and the source tag from the calendar, and a start or end
    [DateTime] that does not parse gives the zero time, not an error. *)
Theorem toInternalEvents_keeps_timed (googleEvents : list GCal.Event)
    (source : string) (events : list Event) :
  toInternalEvents time_Parse_RFC3339 googleEvents source = Value events →
  Forall2
    (λ item event,
       ID event = GCal.Id item ∧ UID event = GCal.ICalUID item ∧
       Title event = GCal.Summary item ∧
       Source event = "google-" +:+ source ∧
       (∀ start, GCal.Start item = Some start →
          StartTime event =
          default zero_Time (time_Parse_RFC3339 (GCal.DateTime start))) ∧
       (∀ end_, GCal.End_ item = Some end_ →
          EndTime event =
          default zero_Time (time_Parse_RFC3339 (GCal.DateTime end_))))
    (filter is_timed googleEvents) events.
Proof.
  revert events. induction googleEvents as [|item rest IH]; intros events.
  { intros [= <-]. constructor. }
  rewrite filter_cons. destruct (decide (is_timed item)) as [Ht|Hnt].
  - destruct Ht as (start & Hs & Hdt). cbn. rewrite Hs.
    rewrite decide_False by done.
    destruct (GCal.End_ item) as [end_|] eqn:He; [|done].
    destruct (attendee_emails (GCal.Attendees item)); [|done].
    destruct (GCal.Organizer item); [|done].
    destruct (toInternalEvents time_Parse_RFC3339 rest source)
      as [events'|]; [|done].
    intros [= <-]. constructor; [|by apply IH]. cbn.
    do 4 (split; [done|]). unfold parsed_or_zero. rewrite Hs, He.
    split; intros ? [= <-]; by destruct (time_Parse_RFC3339 _).
  - rewrite toInternalEvents_skip by done. apply IH.
Qed.

End ConversionFacts.

Lemma toInternalEvents_keeps_timed_witness :
  let parse := λ value : string,
    if decide (value = "2026-11-02T09:00:00Z")
    then Some (Scenario.at_ 1793610000) else None in
  let all_day :=
    {| GCal.Id := "g7"; GCal.Summary := "Holiday";
       GCal.Description := EmptyString; GCal.Location := EmptyString;
       GCal.ICalUID := "uid-7";
       GCal.Start := Some {| GCal.Date := "2026-11-01";
                             GCal.DateTime := EmptyString;
                             GCal.TimeZone := EmptyString |};
       GCal.End_ := None; GCal.Organizer := None; GCal.Attendees := [] |} in
  let meeting :=
    {| GCal.Id := "g8"; GCal.Summary := "Meeting";
       GCal.Description := EmptyString; GCal.Location := EmptyString;
       GCal.ICalUID := "uid-8";
       GCal.Start := Some {| GCal.Date := EmptyString;
                             GCal.DateTime := "2026-11-02T09:00:00Z";
                             GCal.TimeZone := EmptyString |};
       GCal.End_ := Some {| GCal.Date := EmptyString;
                            GCal.DateTime := "tomorrow";
                            GCal.TimeZone := EmptyString |};
       GCal.Organizer := Some {| GCal.OrganizerEmail := "a@example.com" |};
       GCal.Attendees :=
         [Some {| GCal.AttendeeEmail := "b@example.com" |}] |} in
  let event :=
    {| ID := "g8"; Title := "Meeting"; Description := EmptyString;
       StartTime := Scenario.at_ 1793610000; EndTime := zero_Time;
       Location := EmptyString; Organizer := "a@example.com";
       Attendees := ["b@example.com"]; Source := "google-primary";
       UID := "uid-8" |} in
  toInternalEvents parse [all_day; meeting] "primary" = Value [event] ∧
  length (filter is_timed [all_day; meeting]) = 1.
Proof.
  intros parse all_day meeting event.
  assert (H : toInternalEvents parse [all_day; meeting] "primary" =
              Value [event]) by reflexivity.
  split; [exact H|].
  exact (Forall2_length _ _ _
           (toInternalEvents_keeps_timed parse _ _ _ H)).
Defined.

(** ** Paths *)

(** The examples of the documentation of [path.Clean] and [path.Join]. *)
Example path_examples :
  path_Clean "a/c" = "a/c" ∧ path_Clean "a//c" = "a/c" ∧
  path_Clean "a/c/." = "a/c" ∧ path_Clean "a/c/b/.." = "a/c" ∧
  path_Clean "/../a/c" = "/a/c" ∧ path_Clean "/../a/b/../././/c" = "/a/c" ∧
  path_Clean EmptyString = "." ∧ path_Clean "../.." = "../.." ∧
  path_Clean "a/../.." = ".." ∧ path_Clean "/" = "/" ∧
  path_Join ["a"; "b"; "c"] = "a/b/c" ∧ path_Join ["a"; "b/c"] = "a/b/c" ∧
  path_Join ["a/b"; "c"] = "a/b/c" ∧ path_Join ["a/b"; "/c"] = "a/b/c" ∧
  path_Join ["a/b"; "../../../xyz"] = "../xyz" ∧
  path_Join [EmptyString; EmptyString] = EmptyString ∧
  path_Join ["a"; EmptyString] = "a" ∧
  path_Join [EmptyString; "a"] = "a".
Proof. vm_compute. repeat split. Qed.

Lemma Split_nonempty s sep : GoStrings.Split s sep ≠ [].
Proof.
  destruct s as [|c s]; [done|]. cbn [GoStrings.Split].
  destruct (decide (c = sep)); [done|].
  by destruct (GoStrings.Split s sep).
Qed.

Lemma Split_cons_other c s sep piece pieces :
  c ≠ sep → GoStrings.Split s sep = piece :: pieces →
  GoStrings.Split (String c s) sep = String c piece :: pieces.
Proof. intros Hc Hs. cbn [GoStrings.Split]. by rewrite decide_False, Hs. Qed.

(** Splitting at a separator that is there. *)
Lemma Split_app_sep (a b : string) sep :
  GoStrings.Split (a +:+ String sep b) sep =
  GoStrings.Split a sep ++ GoStrings.Split b sep.
Proof.
  induction a as [|c a IH].
  - change (EmptyString +:+ String sep b) with (String sep b).
    cbn [GoStrings.Split]. by rewrite decide_True.
  - rewrite string_app_cons. cbn [GoStrings.Split].
    destruct (decide (c = sep)); [by rewrite IH|].
    rewrite IH. destruct (GoStrings.Split a sep) as [|piece pieces] eqn:Ha;
      [by apply Split_nonempty in Ha|done].
Qed.

Lemma no_sep_cons c s sep :
  GoStrings.Split (String c s) sep = [String c s] →
  c ≠ sep ∧ GoStrings.Split s sep = [s].
Proof.
  cbn [GoStrings.Split]. destruct (decide (c = sep)) as [->|Hc]; [done|].
  destruct (GoStrings.Split s sep) as [|piece pieces] eqn:Hs;
    [by apply Split_nonempty in Hs|].
  by intros [= -> ->].
Qed.

Lemma no_sep_app (a b : string) sep :
  GoStrings.Split a sep = [a] → GoStrings.Split b sep = [b] →
  GoStrings.Split (a +:+ b) sep = [a +:+ b].
Proof.
  intros Ha Hb. induction a as [|c a IH]; [done|].
  apply no_sep_cons in Ha as [Hc Ha]. rewrite string_app_cons.
  by apply Split_cons_other; [|apply IH].
Qed.

Lemma concat_cons_cons sep (x y : string) l :
  String.concat sep (x :: y :: l) = x +:+ sep +:+ String.concat sep (y :: l).
Proof. done. Qed.

Lemma concat_snoc sep (l : list string) (x : string) :
  l ≠ [] →
  String.concat sep (l ++ [x]) = String.concat sep l +:+ sep +:+ x.
Proof.
  induction l as [|y l IH]; [done|]. intros _.
  destruct l as [|z l]; [done|].
  change ((y :: z :: l) ++ [x]) with (y :: (z :: l) ++ [x]).
  change ((z :: l) ++ [x]) with (z :: l ++ [x]) at 1.
  rewrite !concat_cons_cons.
  change (z :: l ++ [x]) with ((z :: l) ++ [x]).
  rewrite IH by done. by rewrite !string_app_assoc.
Qed.

Lemma Split_concat (elements : list string) :
  elements ≠ [] → Forall plain_element elements →
  GoStrings.Split (String.concat "/" elements) "/"%char = elements.
Proof.
  induction elements as [|x l IH]; [done|]. intros _ Hall.
  apply Forall_cons in Hall as [(_ & _ & _ & Hx) Hl].
  destruct l as [|y l]; [done|].
  rewrite concat_cons_cons.
  change ("/" +:+ String.concat "/" (y :: l))
    with (String "/"%char (String.concat "/" (y :: l))).
  by rewrite Split_app_sep, Hx, IH.
Qed.

Lemma foldl_clean_plain rooted (elements kept : list string) :
  Forall plain_element elements →
  foldl (clean_step rooted) kept elements = kept ++ elements.
Proof.
  revert kept. induction elements as [|x l IH]; intros kept Hall.
  { by rewrite app_nil_r. }
  apply Forall_cons in Hall as [(Hne & Hdot & Hdd & _) Hl]. cbn.
  rewrite IH by done. unfold clean_step.
  rewrite decide_False by (intros [?|?]; done).
  rewrite decide_False by done. by rewrite <- app_assoc.
Qed.

Lemma string_app_inv_tail (a b c : string) : a +:+ c = b +:+ c → a = b.
Proof.
  revert b. induction a as [|x a IH]; intros [|y b] H; [done|..].
  - exfalso. apply (f_equal String.length) in H.
    rewrite !string_app_length in H. cbn [String.length] in H. lia.
  - exfalso. apply (f_equal String.length) in H.
    rewrite !string_app_length in H. cbn [String.length] in H. lia.
  - rewrite !string_app_cons in H. injection H as -> H. by rewrite (IH b).
Qed.

Lemma string_app_inv_head (a b c : string) : a +:+ b = a +:+ c → b = c.
Proof.
  induction a as [|x a IH]; [done|]. rewrite !string_app_cons.
  intros [= H]. by apply IH.
Qed.

Lemma concat_head sep c (x : string) l :
  ∃ rest, String.concat sep (String c x :: l) = String c rest.
Proof. destruct l as [|y l]; [by exists x|]. by eexists. Qed.

Lemma path_Clean_relative (p : string) c r kept :
  p = String c r → c ≠ "/"%char →
  foldl (clean_step false) [] (GoStrings.Split p "/"%char) = kept →
  String.concat "/" kept ≠ EmptyString →
  path_Clean p = String.concat "/" kept.
Proof.
  intros Hp Hc Hkept Hbody. unfold path_Clean.
  rewrite Hp at 1. rewrite bool_decide_false by done. cbv zeta.
  rewrite Hkept. by rewrite decide_False.
Qed.

(** Joining a directory of plain elements, with or without a slash at its
    end, and a plain file name. *)
Lemma path_Join_dir_file (elements : list string) (dir file : string) :
  elements ≠ [] → Forall plain_element elements → plain_element file →
  dir = String.concat "/" elements ∨
  dir = String.concat "/" elements +:+ "/" →
  path_Join [dir; file] = String.concat "/" elements +:+ "/" +:+ file.
Proof.
  intros Hne Hall Hfile Hdir.
  destruct elements as [|x l]; [done|].
  pose proof Hall as [(Hx & _ & _ & Hsx) _]%Forall_cons.
  destruct x as [|c x]; [done|].
  apply no_sep_cons in Hsx as [Hc _].
  destruct (concat_head "/" c x l) as [rest Hrest].
  assert (Hsplit : GoStrings.Split (String.concat "/" (String c x :: l))
                     "/"%char = String c x :: l) by by apply Split_concat.
  assert (Hplain : Forall plain_element ((String c x :: l) ++ [file])).
  { apply Forall_app. split; [done|]. by apply Forall_singleton. }
  assert (Hbody : String.concat "/" ((String c x :: l) ++ [file]) =
                  String.concat "/" (String c x :: l) +:+ "/" +:+ file)
    by by apply concat_snoc.
  assert (Hnonempty : String.concat "/" ((String c x :: l) ++ [file])
                      ≠ EmptyString).
  { rewrite Hbody, Hrest. by rewrite string_app_cons. }
  assert (Hd : ∃ rest', dir = String c rest').
  { destruct Hdir as [->| ->]; rewrite Hrest; [by eexists|].
    rewrite string_app_cons. by eexists. }
  destruct Hd as [rest' Hd].
  unfold path_Join. cbn [foldl].
  destruct (decide (EmptyString = EmptyString)); [|done].
  destruct (decide (dir = EmptyString)) as [Hempty|_];
    [by rewrite Hd in Hempty|].
  destruct (decide (dir +:+ "/" +:+ file = EmptyString)) as [Hempty|_];
    [by rewrite Hd in Hempty|].
  rewrite <- Hbody.
  destruct Hfile as (Hf1 & Hf2 & Hf3 & Hsf).
  destruct Hdir as [->| ->].
  - apply (path_Clean_relative _ c (rest +:+ "/" +:+ file)); [| done | | done].
    { by rewrite Hrest, string_app_cons. }
    change ("/" +:+ file) with (String "/"%char file).
    rewrite Split_app_sep, Hsplit, Hsf.
    by rewrite foldl_clean_plain.
  - apply (path_Clean_relative _ c ((rest +:+ "/") +:+ "/" +:+ file));
      [| done | | done].
    { by rewrite Hrest, !string_app_cons. }
    rewrite string_app_assoc.
    change ("/" +:+ "/" +:+ file)
      with (String "/"%char (EmptyString +:+ String "/"%char file)).
    rewrite !Split_app_sep, Hsplit, Hsf.
    rewrite foldl_app, (foldl_clean_plain _ (String c x :: l)) by done.
    cbn [foldl GoStrings.Split app]. unfold clean_step at 2.
    rewrite decide_True by by left.
    unfold clean_step. rewrite decide_False by (intros [?|?]; done).
    by rewrite decide_False.
Qed.

Lemma ics_file_plain (uid : string) :
  GoStrings.Split uid "/"%char = [uid] → plain_element (uid +:+ ".ics").
Proof.
  intros Huid.
  assert (Hlen : (4 ≤ String.length (uid +:+ ".ics"))%nat)
    by (rewrite string_app_length; cbn [String.length]; lia).
  split; [|split; [|split]].
  - intros H. rewrite H in Hlen. cbn in Hlen. lia.
  - intros H. rewrite H in Hlen. cbn in Hlen. lia.
  - intros H. rewrite H in Hlen. cbn in Hlen. lia.
  - by apply no_sep_app.
Qed.

Lemma hexdigit_no_slash n : Uuid.hexdigit n ≠ "/"%char.
Proof.
  unfold Uuid.hexdigit. destruct (Z.to_nat n) as [|k]; [done|].
  do 15 (destruct k as [|k]; [done|]). done.
Qed.

Lemma encodeHex_no_slash bs :
  GoStrings.Split (Uuid.encodeHex bs) "/"%char = [Uuid.encodeHex bs].
Proof.
  induction bs as [|b bs IH]; [done|]. cbn [Uuid.encodeHex].
  apply Split_cons_other; [apply hexdigit_no_slash|].
  by apply Split_cons_other; [apply hexdigit_no_slash|].
Qed.

Lemma Uuid_String_no_slash u :
  GoStrings.Split (Uuid.String u) "/"%char = [Uuid.String u].
Proof.
  unfold Uuid.String.
  repeat (apply no_sep_app; [first [apply encodeHex_no_slash|done]|]).
  apply encodeHex_no_slash.
Qed.

(** X8 (icloud.findCalendar): the lookup succeeds exactly when the three
    discovery requests succeed and some calendar has the name asked for; the
    URL is then the endpoint without its final slash followed by the path of
    the first such calendar, in the order the server lists them.  Every
    failure comes with the empty URL. *)
Theorem findCalendar_first_match (server : CalDAV.Server) (name : string) :
  (∀ url, findCalendar server name = (url, None) ↔
     ∃ principal home before cal after,
       CalDAV.FindCurrentUserPrincipal server = inr principal ∧
       CalDAV.FindCalendarHomeSet server principal = inr home ∧
       CalDAV.FindCalendars server home = inr (before ++ cal :: after) ∧
       Forall (λ other, CalDAV.Name other ≠ name) before ∧
       CalDAV.Name cal = name ∧
       url = "https://caldav.icloud.com" +:+ CalDAV.Path cal) ∧
  (∀ url err, findCalendar server name = (url, Some err) → url = EmptyString).
Proof.
  assert (Hloop : ∀ calendars url,
    first_named calendars name = (url, None) ↔
    ∃ before cal after,
      calendars = before ++ cal :: after ∧
      Forall (λ other, CalDAV.Name other ≠ name) before ∧
      CalDAV.Name cal = name ∧
      url = "https://caldav.icloud.com" +:+ CalDAV.Path cal).
  { induction calendars as [|first rest IH]; intros url.
    - split; [done|]. intros (before & cal & after & H & _). by destruct before.
    - cbn [first_named]. destruct (decide (CalDAV.Name first = name)) as [Hn|Hn].
      + split.
        * intros [= <-]. exists [], first, rest. by repeat split.
        * intros (before & cal & after & Heq & Hbefore & Hcal & ->).
          destruct before as [|other before].
          -- by injection Heq as -> _.
          -- injection Heq as -> _. by apply Forall_cons in Hbefore as [? _].
      + rewrite IH. split.
        * intros (before & cal & after & -> & Hbefore & Hcal & ->).
          exists (first :: before), cal, after.
          repeat split; [by apply Forall_cons|done].
        * intros (before & cal & after & Heq & Hbefore & Hcal & ->).
          destruct before as [|other before].
          -- injection Heq as -> _. done.
          -- injection Heq as -> ->. apply Forall_cons in Hbefore as [_ ?].
             by exists before, cal, after. }
  assert (Hfail : ∀ calendars url err,
    first_named calendars name = (url, Some err) → url = EmptyString).
  { induction calendars as [|first rest IH]; intros url err.
    - by intros [= <- _].
    - cbn [first_named]. destruct (decide _); [done|apply IH]. }
  unfold findCalendar. split.
  - intros url.
    destruct (CalDAV.FindCurrentUserPrincipal server) as [e|principal].
    { split; [done|]. by intros (? & ? & ? & ? & ? & ? & _). }
    destruct (CalDAV.FindCalendarHomeSet server principal) as [e|home] eqn:Hh.
    { split; [done|]. intros (? & ? & ? & ? & ? & [= <-] & Hh' & _).
      by rewrite Hh in Hh'. }
    destruct (CalDAV.FindCalendars server home) as [e|calendars] eqn:Hc.
    { split; [done|]. intros (? & ? & ? & ? & ? & [= <-] & Hh' & Hc' & _).
      rewrite Hh in Hh'. injection Hh' as <-. by rewrite Hc in Hc'. }
    rewrite Hloop. split.
    + intros (before & cal & after & -> & ? & ? & ->).
      by exists principal, home, before, cal, after.
    + intros (? & ? & before & cal & after & [= <-] & Hh' & Hc' & ? & ? & ->).
      rewrite Hh in Hh'. injection Hh' as <-. rewrite Hc in Hc'.
      injection Hc' as ->. by exists before, cal, after.
  - intros url err.
    destruct (CalDAV.FindCurrentUserPrincipal server) as [e|principal];
      [by intros [= <- _]|].
    destruct (CalDAV.FindCalendarHomeSet server principal) as [e|home];
      [by intros [= <- _]|].
    destruct (CalDAV.FindCalendars server home) as [e|calendars];
      [by intros [= <- _]|].
    apply Hfail.
Qed.

(** X9 (CalDAVClient.SyncEvent, event path): for a client whose calendar URL
    is the endpoint followed by a directory of ordinary path elements, with
    or without a final slash, and an event whose UID has no slash, the path
    the event is created under is relative to the endpoint: the directory, a
    slash, the UID and [.ics].  Two such events share a path only when they
    share the UID. *)
Theorem eventPath_under_calendar (c : CalDAVClient) (e : Event)
    (elements : list string) (dir : string) :
  elements ≠ [] → Forall plain_element elements →
  dir = String.concat "/" elements ∨
  dir = String.concat "/" elements +:+ "/" →
  calendarURL c = "https://caldav.icloud.com/" +:+ dir →
  GoStrings.Split (UID e) "/"%char = [UID e] →
  eventPath c e = String.concat "/" elements +:+ "/" +:+ UID e +:+ ".ics" ∧
  ∀ e', GoStrings.Split (UID e') "/"%char = [UID e'] →
        eventPath c e' = eventPath c e → UID e' = UID e.
Proof.
  intros Hne Hall Hdir Hurl Huid.
  assert (Hpath : ∀ ev, GoStrings.Split (UID ev) "/"%char = [UID ev] →
    eventPath c ev =
    String.concat "/" elements +:+ "/" +:+ UID ev +:+ ".ics").
  { intros ev Hev. unfold eventPath. rewrite Hurl.
    change "https://caldav.icloud.com/" with iCloudCalDAVEndpoint.
    rewrite strings_TrimPrefix_app.
    by apply path_Join_dir_file; [| |apply ics_file_plain|]. }
  split; [by apply Hpath|].
  intros e' He' Heq. rewrite !Hpath in Heq by done.
  apply string_app_inv_head in Heq. apply string_app_inv_head in Heq.
  by apply string_app_inv_tail in Heq.
Qed.

Lemma eventPath_under_calendar_witness :
  let c := {| calendarURL :=
                "https://caldav.icloud.com/1234/calendars/home/" |} in
  let e := set_UID Scenario.A "2a35404b-5661-4c77-828d-98a3aeb9c4cf" in
  eventPath c e =
  "1234/calendars/home/2a35404b-5661-4c77-828d-98a3aeb9c4cf.ics".
Proof.
  intros c e.
  refine (proj1 (eventPath_under_calendar c e ["1234"; "calendars"; "home"]
                   "1234/calendars/home/" _ _ _ _ _)).
  - done.
  - repeat (apply Forall_cons; split; [by repeat split|]). by apply Forall_nil.
  - by right.
  - reflexivity.
  - vm_compute. reflexivity.
Defined.

(** X10 (GenerateUID, CalDAVClient.SyncEvent): whatever the random source
    gives, the identifier [GenerateUID] returns names a file directly inside
    the calendar directory: the path of an event that carries it is the
    directory, a slash, the 36-character identifier and [.ics]. *)
Theorem generated_uid_stays_in_calendar (env : Env) (c : CalDAVClient)
    (e : Event) (elements : list string) (dir uid : string) (w w' : World) :
  elements ≠ [] → Forall plain_element elements →
  dir = String.concat "/" elements ∨
  dir = String.concat "/" elements +:+ "/" →
  calendarURL c = "https://caldav.icloud.com/" +:+ dir →
  GenerateUID env w = Ret uid w' →
  String.length uid = 36 ∧
  eventPath c (set_UID e uid) =
    String.concat "/" elements +:+ "/" +:+ uid +:+ ".ics".
Proof.
  intros Hne Hall Hdir Hurl Hgen.
  assert (Huid : uid = Uuid.String (Uuid.NewRandom (random env (clock w)))).
  { unfold GenerateUID in Hgen. run. congruence. }
  split.
  { rewrite Huid. apply Uuid_String_length, NewRandom_length. }
  unfold eventPath. rewrite Hurl.
  change "https://caldav.icloud.com/" with iCloudCalDAVEndpoint.
  rewrite strings_TrimPrefix_app. cbn [UID set_UID].
  apply path_Join_dir_file; [done|done| |done].
  apply ics_file_plain. rewrite Huid. apply Uuid_String_no_slash.
Qed.

Lemma generated_uid_stays_in_calendar_witness :
  let env := Scenario.env_with [] (fun _ => None) in
  let w := Scenario.world_with GoOS.Absent in
  let uid := Uuid.String (Uuid.NewRandom (random env (clock w))) in
  GenerateUID env w = Ret uid (world_of (GenerateUID env w)) ∧
  String.length uid = 36 ∧
  eventPath Scenario.home (set_UID Scenario.A uid) =
    "1/calendars/home/" +:+ uid +:+ ".ics".
Proof.
  intros env w uid. split; [reflexivity|].
  refine (generated_uid_stays_in_calendar env Scenario.home Scenario.A
            ["1"; "calendars"; "home"] "1/calendars/home/" uid w
            (world_of (GenerateUID env w)) _ _ _ _ _).
  - done.
  - repeat (apply Forall_cons; split; [by repeat split|]). by apply Forall_nil.
  - by right.
  - reflexivity.
  - reflexivity.
Defined.

(** ** The log of a cycle *)

Section Ledger.

Variable env : Env.

Local Arguments Uuid.NewRandom : simpl never.
Local Arguments Uuid.String : simpl never.

Lemma ledger_refl l : ledger l l 0 0 0 0.
Proof. by exists []. Qed.

Lemma ledger_trans l0 l1 l2 f1 s1 v1 d1 f2 s2 v2 d2 :
  ledger l0 l1 f1 s1 v1 d1 → ledger l1 l2 f2 s2 v2 d2 →
  ledger l0 l2 (f1 + f2) (s1 + s2) (v1 + v2) (d1 + d2).
Proof.
  intros (n1 & -> & Hf1 & Hs1 & Hv1 & Hd1 & He1)
         (n2 & -> & Hf2 & Hs2 & Hv2 & Hd2 & He2).
  exists (n2 ++ n1). unfold occurrences, error_lines in *.
  rewrite !filter_app, !length_app, app_assoc.
  split; [done|]. repeat split; lia.
Qed.

Lemma ledger_eq l l' f s v d f' s' v' d' :
  ledger l l' f s v d → f = f' → s = s' → v = v' → d = d' →
  ledger l l' f' s' v' d'.
Proof. by intros H <- <- <- <-. Qed.

Lemma ledger_since w w' f s v d :
  ledger (log w) (log w') f s v d →
  occurrences fetch_failed (logged_since w w') = f ∧
  occurrences sync_failed (logged_since w w') = s ∧
  occurrences save_failed (logged_since w w') = v ∧
  occurrences would_create (logged_since w w') = d ∧
  error_lines (logged_since w w') = f + s + v.
Proof.
  intros (entries & Hlog & H). unfold logged_since.
  rewrite Hlog, length_app.
  replace (length entries + length (log w) - length (log w))
    with (length entries) by lia.
  by rewrite take_app_length.
Qed.

Lemma failed_calls_app c1 c2 :
  failed_calls (c1 ++ c2) = failed_calls c1 + failed_calls c2.
Proof. unfold failed_calls. by rewrite filter_app, length_app. Qed.

Lemma failed_fetches_app t p1 p2 :
  failed_fetches env t (p1 ++ p2) =
  failed_fetches env t p1 + failed_fetches env (t + length p1) p2.
Proof.
  revert t. induction p1 as [|[c calID] p1 IH]; intros t; cbn.
  - by rewrite Nat.add_0_r.
  - rewrite IH. replace (S t + length p1) with (t + S (length p1)) by lia. lia.
Qed.

(** The lines between the log [l] and a log built on it. *)
Ltac lines_between l' l :=
  lazymatch l' with
  | l => constr:(@nil LogEntry)
  | ?x :: ?t => let p := lines_between t l in constr:(x :: p)
  end.

Ltac ledger_here :=
  lazymatch goal with
  | |- ledger ?l ?l' _ _ _ _ =>
      let p := lines_between l' l in
      exists p; split; [reflexivity|by vm_compute]
  end.

(** One iteration of the event loop, with the line [Sync] adds when
    [syncEvent] returns an error. *)
Lemma syncEvent_ledger s e w :
  ∃ calls failed dry,
    failed_calls calls = failed ∧
    dry = (if decide (dryRun s = true ∧ map_index (state s) (ID e) = None)
           then 1 else 0) ∧
    match syncEvent env s e w with
    | Ret (err, s1, _) w1 =>
        icloud_calls (after_event err w1) = calls ++ icloud_calls w ∧
        ledger (log w) (log (after_event err w1)) 0 failed 0 dry ∧
        dryRun s1 = dryRun s ∧ (dryRun s = true → s1 = s)
    | Panic _ w1 =>
        icloud_calls w1 = calls ++ icloud_calls w ∧
        ledger (log w) (log w1) 0 failed 0 dry ∧ dryRun s = false
    end.
Proof.
  unfold syncEvent.
  destruct (map_index (state s) (ID e)) as [v|] eqn:Hidx.
  { exists [], 0, 0. split; [done|]. split.
    { rewrite decide_False; [done|]. by intros [_ ?]. }
    run. cbn. split; [done|]. split; [ledger_here|done]. }
  unfold GenerateUID, SyncEvent.
  destruct (dryRun s) eqn:Hdry.
  - exists [], 0, 1. split; [done|]. split; [by rewrite decide_True|].
    destruct (decide (UID e = EmptyString)) as [Hu|Hu]; run; cbn;
      (split; [done|]); (split; [ledger_here|done]).
  - destruct (decide (UID e = EmptyString)) as [Hu|Hu]; run; cbn [clock];
      match goal with
      | |- context [caldav_answer env ?t ?c ?ev] =>
          destruct (caldav_answer env t c ev) as [x|] eqn:Hc
      end.
    all: first
      [ eexists [ {| created := _; outcome := Some x |} ], 1, 0;
        split; [reflexivity|];
        split; [by rewrite decide_False by (by intros [? _])|];
        cbn; split; [reflexivity|]; split; [ledger_here|done]
      | eexists [ {| created := _; outcome := None |} ], 0, 0;
        split; [reflexivity|];
        split; [by rewrite decide_False by (by intros [? _])|];
        destruct (state s) as [|m] eqn:Hst; cbn;
        (split; [reflexivity|]); (split; [ledger_here|done]) ].
Qed.

(** The event loop: every failed create is reported once, a dry run
    reports every event the state does not know, and nothing else is
    reported as an error. *)
Lemma sync_events_ledger evs : ∀ s w, ∃ calls,
  icloud_calls (world_of (sync_events env s evs w)) =
    calls ++ icloud_calls w ∧
  ledger (log w) (log (world_of (sync_events env s evs w)))
    0 (failed_calls calls) 0
    (if dryRun s then length (unknown s evs) else 0) ∧
  (dryRun s = true → ∃ w1, sync_events env s evs w = Ret s w1).
Proof.
  induction evs as [|ev rest IH]; intros s w.
  { exists []. cbn. split; [done|]. split; [|by eexists].
    destruct (dryRun s); apply ledger_refl. }
  rewrite sync_events_cons.
  destruct (syncEvent_ledger s ev w) as (c1 & f1 & d1 & Hf1 & Hd1 & Hstep).
  destruct (syncEvent env s ev w) as [[[err s1] ev1] w1|msg w1].
  - destruct Hstep as (Hc & Hl & Hdry & Hsame).
    destruct (IH s1 (after_event err w1)) as (c2 & Hc2 & Hl2 & Hret).
    exists (c2 ++ c1). split; [by rewrite Hc2, Hc, app_assoc|]. split.
    + eapply ledger_eq;
        [exact (ledger_trans _ _ _ _ _ _ _ _ _ _ _ Hl Hl2)|done| |done|].
      * rewrite failed_calls_app. lia.
      * rewrite Hdry. destruct (dryRun s) eqn:Hd.
        -- rewrite (Hsame eq_refl). unfold unknown. rewrite filter_cons.
           rewrite Hd1. destruct (decide (map_index (state s) (ID ev) = None)).
           ++ by rewrite decide_True.
           ++ rewrite decide_False; [done|]. by intros [_ ?].
        -- rewrite Hd1, decide_False; [done|]. by intros [? _].
    + intros Hd. rewrite Hdry in Hret. destruct (Hret Hd) as (w2 & ->).
      rewrite (Hsame Hd). by eexists.
  - destruct Hstep as (Hc & Hl & Hdry). exists c1. cbn [world_of].
    split; [done|]. split; [|by rewrite Hdry].
    eapply ledger_eq; [exact Hl|done|done|done|].
    rewrite Hdry, Hd1, decide_False; [done|]. intros [? _]. congruence.
Qed.

Lemma GetUpcomingEvents_ledger c calID days w :
  ledger (log w) (log (world_of (GetUpcomingEvents env c calID days w)))
    0 0 0 0.
Proof.
  unfold GetUpcomingEvents. run.
  destruct (google_events env (clock w) c calID days); cbn; ledger_here.
Qed.

Lemma fetch_calendars_ledger c calendarIDs : ∀ allEvents w,
  ledger (log w)
    (log (world_of (fetch_calendars env c calendarIDs allEvents w)))
    (failed_fetches env (clock w) (pair c <$> calendarIDs)) 0 0 0.
Proof.
  induction calendarIDs as [|calID rest IH]; intros allEvents w.
  { apply ledger_refl. }
  cbn [fetch_calendars]. unfold mbind at 1, M_bind at 1.
  pose proof (GetUpcomingEvents_ledger c calID 7 w) as Hg.
  destruct (GetUpcomingEvents_run env c calID 7 w) as (w1 & Hck & _ & Heq).
  rewrite Heq in Hg |- *. cbn [fmap list_fmap failed_fetches].
  destruct (google_events env (clock w) c calID 7) as [e|events];
    cbn [world_of] in Hg.
  - unfold mbind, M_bind, logf.
    match goal with |- context [fetch_calendars env c rest allEvents ?w2] =>
      pose proof (IH allEvents w2) as H2 end.
    cbn [clock log] in H2. rewrite <- Hck.
    assert (H1 : ledger (log w1) (fetch_failed :: log w1) 1 0 0 0)
      by ledger_here.
    eapply ledger_eq;
      [exact (ledger_trans _ _ _ _ _ _ _ _ _ _ _
                (ledger_trans _ _ _ _ _ _ _ _ _ _ _ Hg H1) H2)|..]; done.
  - pose proof (IH (allEvents ++ events) w1) as H2. rewrite <- Hck.
    eapply ledger_eq;
      [exact (ledger_trans _ _ _ _ _ _ _ _ _ _ _ Hg H2)|..]; done.
Qed.

Lemma fetch_clients_ledger clients calendarIDs : ∀ allEvents w,
  ledger (log w)
    (log (world_of (fetch_clients env clients calendarIDs allEvents w)))
    (failed_fetches env (clock w) (list_prod clients calendarIDs)) 0 0 0.
Proof.
  induction clients as [|c rest IH]; intros allEvents w.
  { apply ledger_refl. }
  cbn [fetch_clients list_prod]. unfold mbind, M_bind.
  pose proof (fetch_calendars_ledger c calendarIDs allEvents w) as H1.
  destruct (fetch_calendars_run env c calendarIDs allEvents w)
    as (w1 & Hck & _ & Heq).
  rewrite Heq in H1 |- *. cbn [world_of] in H1.
  pose proof (IH (allEvents ++
                  collect env (clock w) (pair c <$> calendarIDs)) w1) as H2.
  rewrite failed_fetches_app, length_fmap, <- Hck.
  eapply ledger_eq; [exact (ledger_trans _ _ _ _ _ _ _ _ _ _ _ H1 H2)|..];
    done.
Qed.

Lemma fetchAllGoogleEvents_ledger s w :
  googleCalIDs s ≠ [] →
  ledger (log w) (log (world_of (fetchAllGoogleEvents env s w)))
    (failed_fetches env (clock w) (fetch_plan s)) 0 0 0.
Proof.
  intros Hne. unfold fetchAllGoogleEvents, fetch_plan.
  destruct (googleCalIDs s) as [|first ?]; [done|].
  unfold mbind, M_bind.
  pose proof (fetch_clients_ledger (googleClients s)
                (GoStrings.Split first ","%char) [] w) as H.
  destruct (fetch_clients_run env (googleClients s)
              (GoStrings.Split first ","%char) [] w) as (w' & _ & Heq).
  by rewrite Heq in H |- *.
Qed.

(** The stages of a cycle, with what the fetches wrote to the log. *)
Lemma Sync_stages s w :
  googleCalIDs s ≠ [] →
  ∃ w0, extends w w0 [] ∧
    ledger (log w) (log w0)
      (failed_fetches env (clock w) (fetch_plan s)) 0 0 0 ∧
    match sync_events env s (events_fetched env s w) w0 with
    | Ret s' w1 =>
        ∃ w', Sync env s w = Ret (None, s') w' ∧ cycle_end env s' w1 w'
    | Panic msg w1 => Sync env s w = Panic msg w1
    end.
Proof.
  intros Hne. remember (Sync env s w) as R eqn:HR.
  unfold Sync in HR. unfold mbind at 1 2, M_bind at 1 2 in HR.
  unfold logf at 1 in HR.
  match type of HR with context [fetchAllGoogleEvents env s ?wa] =>
    pose proof (fetchAllGoogleEvents_ledger s wa Hne) as Hl;
    destruct (fetchAllGoogleEvents_run env s wa Hne) as (wf & Hext & Hf);
    change (events_fetched env s wa) with (events_fetched env s w) in Hf
  end.
  rewrite Hf in HR, Hl. cbn [world_of clock log] in Hl.
  unfold mbind at 1 2, M_bind at 1 2 in HR.
  unfold logf at 1 in HR.
  match type of HR with context [sync_events env s _ ?wb] => exists wb end.
  split.
  { eapply extends_nil_trans; [|eapply extends_nil_trans; [exact Hext|]];
      by split. }
  split.
  { cbn [log].
    match type of Hl with ledger (?x :: _) _ _ _ _ _ =>
      assert (H0 : ledger (log w) (x :: log w) 0 0 0 0) by ledger_here end.
    match goal with |- ledger _ (?y :: _) _ _ _ _ =>
      assert (H2 : ledger (log wf) (y :: log wf) 0 0 0 0) by ledger_here end.
    eapply ledger_eq;
      [exact (ledger_trans _ _ _ _ _ _ _ _ _ _ _
                (ledger_trans _ _ _ _ _ _ _ _ _ _ _ H0 Hl) H2)|..];
      first [done|lia]. }
  destruct (sync_events env s (events_fetched env s w) _) as [s' w1|msg w1];
    [|done].
  unfold cycle_end. unfold saveState, os_WriteFile in HR.
  destruct (dryRun s'); cbn [negb] in HR.
  { run. eexists. split; [exact HR|]. done. }
  destruct (json_MarshalIndent env (state s')) as [e|data].
  { run. eexists. split; [exact HR|]. done. }
  run. destruct (fs_write env (clock w1) data) as [[errno residue]|];
    eexists; (split; [exact HR|]); done.
Qed.

(** How a cycle ends, in terms of the log. *)
Lemma cycle_end_ledger s' w1 w' :
  cycle_end env s' w1 w' →
  ∃ save : nat, (save ≤ 1)%nat ∧ ledger (log w1) (log w') 0 0 save 0 ∧
    (dryRun s' = true → save = 0) ∧
    (save = 0 → dryRun s' = false → persisted env s' w').
Proof.
  unfold cycle_end, persisted. intros [_ H].
  destruct (dryRun s').
  { destruct H as [_ ->]. exists 0. split; [lia|].
    split; [ledger_here|done]. }
  destruct (json_MarshalIndent env (state s')) as [e|data].
  { destruct H as [_ ->]. exists 1. split; [lia|].
    split; [ledger_here|done]. }
  destruct (fs_write env (clock w1) data) as [[errno residue]|];
    destruct H as [Hfile ->].
  - exists 1. split; [lia|]. split; [ledger_here|done].
  - exists 0. split; [lia|]. split; [ledger_here|].
    split; [done|]. intros _ _. by exists data.
Qed.

End Ledger.

(** X11 (Sync, fetchAllGoogleEvents): a cycle that returns reports every
    failure exactly once in its log, and nothing else as an error.  The log
    gains one line "Could not fetch events for a google calendar" per failed
    fetch, one line "Failed to sync event" per failed create invocation, at
    most one line "Failed to save sync state", and no other line of level
    Error; when a cycle that is not a dry run logs no save failure, the
    state file holds the encoding of the state it returns. *)
Theorem failures_logged_once (env : Env) (s s' : Syncer) (w w' : World)
    (err : option error) :
  Sync env s w = Ret (err, s') w' →
  occurrences fetch_failed (logged_since w w') =
    failed_fetches env (clock w) (fetch_plan s) ∧
  occurrences sync_failed (logged_since w w') =
    failed_calls (calls_since w w') ∧
  (occurrences save_failed (logged_since w w') ≤ 1)%nat ∧
  (occurrences save_failed (logged_since w w') = 0 → dryRun s = false →
   persisted env s' w') ∧
  error_lines (logged_since w w') =
    failed_fetches env (clock w) (fetch_plan s) +
    failed_calls (calls_since w w') +
    occurrences save_failed (logged_since w w').
Proof.
  intros HS.
  destruct (googleCalIDs s) as [|first ids] eqn:Hids.
  { destruct (Sync_panics env s w Hids) as (w0 & _ & HP). congruence. }
  assert (Hne : googleCalIDs s ≠ []) by by rewrite Hids.
  destruct (Sync_stages env s w Hne) as (w0 & [_ Hcalls0] & Hl0 & Hm).
  destruct (sync_events_ledger env (events_fetched env s w) s w0)
    as (calls & Hc & Hl1 & _).
  destruct (sync_events_run env (events_fetched env s w) s w0)
    as (new & _ & _ & Hout).
  destruct (sync_events env s (events_fetched env s w) w0) as [s1 w1|msg w1];
    [|congruence].
  destruct Hm as (w'' & HS' & Hend). rewrite HS in HS'.
  injection HS' as -> -> ->. cbn [world_of] in Hc, Hl1.
  pose proof (same_config_dryRun _ _ (lr_config _ _ _ _ Hout)) as Hdry.
  destruct (cycle_end_ledger env s1 w1 w'' Hend)
    as (save & Hle & Hl2 & _ & Hsaved).
  assert (Hsince : calls_since w w'' = calls).
  { apply calls_since_extends. destruct Hend as [-> _].
    by rewrite Hc, Hcalls0. }
  pose proof (ledger_trans _ _ _ _ _ _ _ _ _ _ _
                (ledger_trans _ _ _ _ _ _ _ _ _ _ _ Hl0 Hl1) Hl2) as Hl.
  apply ledger_since in Hl as (Hf & Hs & Hv & _ & He).
  rewrite Hsince, Hf, Hs, Hv, He.
  split; [lia|]. split; [lia|]. split; [lia|]. split; [|lia].
  intros H0 Hd. apply Hsaved; [lia|congruence].
Qed.

Lemma failures_logged_once_witness :
  let env :=
    Scenario.env_with [Scenario.B; Scenario.C]
      (fun e => if decide (ID e = "g3") then Some (CalDAVError "503")
                else None) in
  let s := Scenario.syncer_with (alloc ∅) false in
  let s' := Scenario.syncer_with (alloc {[ "g2" := "uid-b" ]}) false in
  let w := Scenario.world_with GoOS.Absent in
  let w' := world_of (Sync env s w) in
  Sync env s w = Ret (None, s') w' ∧
  occurrences sync_failed (logged_since w w') =
    failed_calls (calls_since w w') ∧
  error_lines (logged_since w w') =
    failed_fetches env (clock w) (fetch_plan s) +
    failed_calls (calls_since w w') +
    occurrences save_failed (logged_since w w').
Proof.
  intros env s s' w w'.
  assert (H : Sync env s w = Ret (None, s') w') by (vm_compute; reflexivity).
  split; [exact H|].
  destruct (failures_logged_once env s s' w w' None H)
    as (_ & Hsync & _ & _ & Herr).
  exact (conj Hsync Herr).
Defined.



(** ** Cycle after cycle *)

Section Watch.

Variable env : Env.

Lemma Sync_remembers s w err s' w' :
  Sync env s w = Ret (err, s') w' →
  err = None ∧
  ∃ new, icloud_calls w' = new ++ icloud_calls w ∧ remembers s s' new.
Proof.
  intros HS.
  destruct (Sync_outcome env s w) as (new & Hcalls & Hall & Hout).
  rewrite HS in Hcalls, Hout. cbn [world_of] in Hcalls.
  destruct Hout as (-> & Hne & Hl & _). split; [done|].
  exists new. split; [done|].
  destruct (Sync_loop_calls env s w Hne) as (w0 & _ & Hext & Hloop).
  rewrite HS in Hext. cbn [world_of] in Hext.
  rewrite (calls_since_extends _ _ _ Hcalls) in Hext.
  destruct (sync_events_trace env _ _ _ _ Hext) as (_ & Honce & Hfin).
  split.
  - apply (lr_config _ _ _ _ Hl).
  - apply (lr_kept _ _ _ _ Hl).
  - intros c Hc. rewrite Forall_forall in Hall.
    by destruct (Hall c Hc) as (_ & ? & _).
  - destruct (sync_events env s (events_fetched env s w) w0)
      as [s1 w1|msg w1] eqn:Hrun.
    + destruct Hloop as (w2 & HS2 & _). rewrite HS in HS2.
      injection HS2 as <- <-. by apply (Hfin s' w1).
    + congruence.
  - exact Honce.
Qed.

Lemma remembers_refl s : remembers s s [].
Proof.
  split; [apply same_config_refl|done|..].
  - intros c Hc. by apply elem_of_nil in Hc.
  - intros c Hc. by apply elem_of_nil in Hc.
  - intros newer c older Heq. by destruct newer.
Qed.

Lemma remembers_trans s s1 s2 n1 n2 :
  remembers s s1 n1 → remembers s1 s2 n2 → remembers s s2 (n2 ++ n1).
Proof.
  intros H1 H2. split.
  - eapply same_config_trans; [apply H1|apply H2].
  - intros k v Hk. apply (rm_kept _ _ _ H2), (rm_kept _ _ _ H1), Hk.
  - intros c [Hc|Hc]%elem_of_app; [|by apply (rm_new _ _ _ H1)].
    pose proof (rm_new _ _ _ H2 c Hc) as Hnone.
    destruct (map_index (state s) (ID (created c))) as [v|] eqn:Hv; [|done].
    apply (rm_kept _ _ _ H1) in Hv. congruence.
  - intros c [Hc|Hc]%elem_of_app Hok; [by apply (rm_recorded _ _ _ H2)|].
    apply (rm_kept _ _ _ H2). by apply (rm_recorded _ _ _ H1).
  - intros newer c older Heq Hok c' Hc'.
    assert (Hlater : ∀ c1, c1 ∈ n2 → c ∈ n1 → ID (created c1) ≠ ID (created c)).
    { intros c1 Hc1 Hc Heq1. pose proof (rm_new _ _ _ H2 c1 Hc1) as Hnone.
      by rewrite Heq1, (rm_recorded _ _ _ H1 c Hc Hok) in Hnone. }
    apply app_eq_inv in Heq as [(k & -> & Hk)|(k & -> & Hk)].
    + destruct k as [|c0 k].
      * cbn in Hk. subst n1. rewrite app_nil_r in Hlater.
        apply Hlater; [done|by left].
      * injection Hk as <- ->.
        by apply (rm_once _ _ _ H2 newer c k).
    + subst n1. apply elem_of_app in Hc' as [Hc'|Hc'].
      * apply Hlater; [done|]. apply elem_of_app. right. by left.
      * by apply (rm_once _ _ _ H1 k c older).
Qed.

Lemma watch_cycles_remembers n : ∀ s w s' w',
  watch_cycles env n s w = Ret s' w' →
  ∃ new, icloud_calls w' = new ++ icloud_calls w ∧ remembers s s' new.
Proof.
  induction n as [|n IH]; intros s w s' w' Hrun.
  { injection Hrun as <- <-. exists []. split; [done|apply remembers_refl]. }
  cbn [watch_cycles] in Hrun. unfold mbind at 1, M_bind at 1 in Hrun.
  destruct (Sync env s w) as [[err s1] w1|msg w1] eqn:HS; [|done].
  destruct (Sync_remembers s w err s1 w1 HS) as (-> & n1 & Hc1 & H1).
  unfold mbind, M_bind, mret, M_ret in Hrun.
  destruct (IH s1 w1 s' w' Hrun) as (n2 & Hc2 & H2).
  exists (n2 ++ n1). split; [by rewrite Hc2, Hc1, app_assoc|].
  by eapply remembers_trans.
Qed.

Lemma watch_returns seconds n s w s' w' :
  watch env seconds n s w = Ret s' w' →
  (0 < int64_wrap (seconds * time_Second))%Z ∧
  ∃ new, icloud_calls w' = new ++ icloud_calls w ∧ remembers s s' new.
Proof.
  unfold watch. cbv zeta. unfold mbind, M_bind, logf, panic.
  destruct (decide (int64_wrap (seconds * time_Second) ≤ 0)%Z); [done|].
  intros Hrun. split; [lia|].
  destruct (watch_cycles_remembers n s _ s' w' Hrun) as (new & Hc & H).
  by exists new.
Qed.

End Watch.

(** X13 (sync command, watch mode): while the watcher runs, what one cycle
    has created no later cycle creates again.  If the loop is observed
    after any number of cycles, no create invocation for a source
    identifier follows a successful one for the same identifier, and the
    state in memory still maps that identifier to the UID that was sent;
    this does not depend on the state file being written. *)
Theorem watch_creates_once (env : Env) (seconds : Z) (n : nat)
    (s s' : Syncer) (w w' : World) (newer older : list CreateCall)
    (c : CreateCall) :
  watch env seconds n s w = Ret s' w' →
  calls_since w w' = newer ++ c :: older →
  outcome c = None →
  (∀ c', c' ∈ newer → ID (created c') ≠ ID (created c)) ∧
  map_index (state s') (ID (created c)) = Some (UID (created c)) ∧
  same_config s s'.
Proof.
  intros Hrun Hcalls Hok.
  destruct (watch_returns env seconds n s w s' w' Hrun)
    as (_ & new & Hc & Hrem).
  rewrite (calls_since_extends _ _ _ Hc) in Hcalls. subst new.
  split; [|split].
  - by apply (rm_once _ _ _ Hrem newer c older).
  - apply (rm_recorded _ _ _ Hrem); [|done].
    apply elem_of_app. right. by left.
  - apply (rm_config _ _ _ Hrem).
Qed.

Lemma watch_creates_once_witness :
  let env :=
    {| json_MarshalIndent := FlatJSON.MarshalIndent;
       json_Unmarshal := FlatJSON.Unmarshal;
       google_events := fun _ _ _ _ => inr [Scenario.B; Scenario.C];
       caldav_create := fun _ _ _ => None;
       caldav_encode := fun _ _ _ => None;
       fs_write := fun _ _ => Some (EACCES, GoOS.Absent);
       random := fun _ _ => 0%Z |} in
  let s := Scenario.syncer_with (alloc ∅) false in
  let s' :=
    Scenario.syncer_with
      (alloc (<["g3" := "uid-c"]> {[ "g2" := "uid-b" ]})) false in
  let w := Scenario.world_with GoOS.Absent in
  let w' := world_of (watch env 300 3 s w) in
  let cB := call (normalized env s Scenario.B w) None in
  let cC := call (normalized env s Scenario.C w) None in
  (watch env 300 3 s w = Ret s' w' ∧
   calls_since w w' = [cC] ++ cB :: [] ∧
   outcome cB = None ∧ file w' = GoOS.Absent) ∧
  ID (created cC) ≠ ID (created cB) ∧
  map_index (state s') (ID (created cB)) = Some (UID (created cB)).
Proof.
  intros env s s' w w' cB cC.
  assert (H1 : watch env 300 3 s w = Ret s' w') by (vm_compute; reflexivity).
  assert (H2 : calls_since w w' = [cC] ++ cB :: [])
    by (vm_compute; reflexivity).
  assert (H3 : outcome cB = None) by reflexivity.
  assert (H4 : file w' = GoOS.Absent) by (vm_compute; reflexivity).
  split; [exact (conj H1 (conj H2 (conj H3 H4)))|].
  destruct (watch_creates_once env 300 3 s s' w w' [cC] [] cB H1 H2 H3)
    as (Honce & Hstate & _).
  split; [|exact Hstate]. apply Honce. by left.
Defined.

(** X14 (sync command, watch mode): the interval of the ticker is the
    number of seconds times [time.Second] in 64-bit arithmetic, and
    [time.NewTicker] panics unless it is positive.  So [--watch] with a
    value from -9223372036 to 0, or from 9223372037 to 18446744073 (where
    the product overflows to a negative duration), stops the command with
    a panic before the first cycle: nothing is fetched, created or
    written. *)
Theorem watch_needs_positive_interval (env : Env) (seconds : Z) (n : nat)
    (s : Syncer) (w : World) :
  (-9223372036 ≤ seconds ≤ 0 ∨ 9223372037 ≤ seconds ≤ 18446744073)%Z →
  ∃ w1,
    watch env seconds n s w =
      Panic "non-positive interval for NewTicker" w1 ∧
    extends w w1 [] ∧ clock w1 = clock w.
Proof.
  intros Hrange. unfold watch. cbv zeta. unfold mbind, M_bind, logf, panic.
  rewrite decide_True.
  { eexists. split; [reflexivity|]. by split. }
  unfold int64_wrap, time_Second.
  destruct Hrange as [[Hlo Hhi]|[Hlo Hhi]].
  - rewrite Z.mod_small; lia.
  - replace (seconds * 1000000000 + 2 ^ 63)%Z
      with ((seconds * 1000000000 - 2 ^ 63) + 1 * 2 ^ 64)%Z by lia.
    rewrite Z.mod_add by lia. rewrite Z.mod_small; lia.
Qed.

Lemma watch_needs_positive_interval_witness :
  let env := Scenario.env_with [Scenario.B] (fun _ => None) in
  let s := Scenario.syncer_with (alloc ∅) false in
  let w := Scenario.world_with GoOS.Absent in
  (-9223372036 ≤ 0 ≤ 0 ∨ 9223372037 ≤ 0 ≤ 18446744073)%Z ∧
  ∃ w1,
    watch env 0 2 s w = Panic "non-positive interval for NewTicker" w1 ∧
    extends w w1 [] ∧ clock w1 = clock w.
Proof.
  intros env s w.
  assert (H : (-9223372036 ≤ 0 ≤ 0 ∨ 9223372037 ≤ 0 ≤ 18446744073)%Z)
    by (left; lia).
  split; [exact H|]. exact (watch_needs_positive_interval env 0 2 s w H).
Defined.

(** ** The list of calendar IDs *)




(** ** A state that is a nil map *)

Section NilState.

Variable env : Env.


End NilState.


